(** * sopix: Simple Option Parser In POSIX -- a verification development

    The generator ([generate_parser], [_parse_docstring] of [src/sopix.py])
    is embedded as executable Rocq functions over Python strings, and the
    shell program it emits (the text of [PARSER_TEMPLATE] and of the
    [SNIPPET] fragments) as a state machine over the positional parameters.

    Conventions.
    - A Python [str] is a list of characters; a character is a code point
      below 256 ([ascii]).
    - In a literal the backquote stands for the double quote of the source
      (the source has no backquote of its own): [py] puts the double quote
      back.  Tabs and line breaks are literal, as in the source.
    - Python exceptions are the left injection of a sum ([PyError]). *)

From Stdlib Require Import Ascii Lia.
From stdpp Require Import base option list strings gmap sorting.

Abbreviation text := (list ascii).

(** ** Python string primitives *)
Module Py.
Local Open Scope char_scope.

Definition dquote : ascii := ascii_of_nat 34.
Definition unquote (c : ascii) : ascii :=
  if bool_decide (c = "`") then dquote else c.
Definition py (s : string) : text := unquote <$> String.list_ascii_of_string s.

Definition code (c : ascii) : nat := nat_of_ascii c.
Definition between (lo hi c : ascii) : bool :=
  ((code lo <=? code c) && (code c <=? code hi))%nat.

(** [str.isspace] on one character, which is also the class [\s] of [re]
    and what [str.split()] and [str.strip()] take for blank. *)
Definition isspace (c : ascii) : bool :=
  between "009" "013" c || between "028" "032" c
  || bool_decide (c = "133") || bool_decide (c = "160").

(** The line boundaries of [str.splitlines] (code points below 256). *)
Definition islinebreak (c : ascii) : bool :=
  between "010" "013" c || between "028" "030" c || bool_decide (c = "133").

Definition islower (c : ascii) : bool := between "a" "z" c.
Definition isupper (c : ascii) : bool := between "A" "Z" c.
Definition isdigit (c : ascii) : bool := between "0" "9" c.
Definition isalnum (c : ascii) : bool := islower c || isupper c || isdigit c.

Definition lower (c : ascii) : ascii :=
  if isupper c then ascii_of_nat (code c + 32) else c.

Fixpoint lstrip (s : text) : text :=
  match s with
  | c :: t => if isspace c then lstrip t else s
  | [] => []
  end.
Definition rstrip (s : text) : text := reverse (lstrip (reverse s)).
Definition strip (s : text) : text := rstrip (lstrip s).

(** [s.lstrip(chars)] *)
Fixpoint lstrip_chars (chars : list ascii) (s : text) : text :=
  match s with
  | c :: t => if bool_decide (c ∈ chars) then lstrip_chars chars t else s
  | [] => []
  end.

(** [s.split()]: the maximal runs of non-blank characters. *)
Fixpoint split_from (cur : text) (s : text) : list text :=
  match s with
  | [] => match cur with [] => [] | _ => [reverse cur] end
  | c :: t =>
      if isspace c
      then match cur with
           | [] => split_from [] t
           | _ => reverse cur :: split_from [] t
           end
      else split_from (c :: cur) t
  end.
Definition split (s : text) : list text := split_from [] s.

Fixpoint startswith (s p : text) : bool :=
  match p, s with
  | [], _ => true
  | a :: p', b :: s' => bool_decide (a = b) && startswith s' p'
  | _ :: _, [] => false
  end.

(** [p in s] for strings. *)
Fixpoint contains (s p : text) : bool :=
  startswith s p || match s with [] => false | _ :: t => contains t p end.

(** [s.replace(old, new)]; [skip] counts how many characters of a
    replaced occurrence are still to be passed over. *)
Fixpoint replace_from (old new : text) (skip : nat) (s : text) : text :=
  match s with
  | [] => []
  | c :: t =>
      match skip with
      | S k => replace_from old new k t
      | O => if startswith s old
             then new ++ replace_from old new (length old - 1) t
             else c :: replace_from old new 0 t
      end
  end.
Definition replace (s old new : text) : text :=
  match old with
  | [] => new ++ mjoin ((λ c, c :: new) <$> s)
  | _ => replace_from old new 0 s
  end.

(** [sep.join(l)] *)
Fixpoint join (sep : text) (l : list text) : text :=
  match l with
  | [] => []
  | [x] => x
  | x :: l' => x ++ sep ++ join sep l'
  end.

(** ["{:{width}}".format(s, width=w)] for a string [s] (Python 3.10 and
    later: a width of 0 pads nothing). *)
Definition format_width (s : text) (w : nat) : text :=
  s ++ replicate (w - length s) " ".

(** [textwrap.indent(s, prefix)]: the prefix is put before every line
    that has a non-blank character; lines are those of
    [s.splitlines(True)]. *)
Fixpoint line_has_nonspace (s : text) : bool :=
  match s with
  | [] => false
  | c :: t => if islinebreak c then false
              else negb (isspace c) || line_has_nonspace t
  end.
Fixpoint indent_from (prefix : text) (bol : bool) (s : text) : text :=
  match s with
  | [] => []
  | c :: t =>
      let ends :=
        islinebreak c &&
        negb (bool_decide (c = "013") &&
              match t with "010" :: _ => true | _ => false end) in
      (if bol && line_has_nonspace s then prefix else [])
        ++ c :: indent_from prefix ends t
  end.
Definition indent (s prefix : text) : text := indent_from prefix true s.

End Py.
Export Py.

(** ** Formatting operators, [string.Template] and the regular expressions *)
Module PyFormat.
Local Open Scope char_scope.

Fixpoint take_while (f : ascii → bool) (s : text) : text :=
  match s with
  | c :: t => if f c then c :: take_while f t else []
  | [] => []
  end.
Fixpoint drop_while (f : ascii → bool) (s : text) : text :=
  match s with
  | c :: t => if f c then drop_while f t else s
  | [] => []
  end.

(** *** The [%] operator with one string argument

    A conversion specifier is [%], an optional [(key)], flags, a width,
    a precision, a length modifier and the conversion character.
    [spec_conv t] reads the characters [t] after the [%] and gives how
    many stand before the conversion character and that character; it is
    [None] where Python raises while reading (a mapping key or a [*]
    without the matching argument, a format that ends early). *)
Definition isflag (c : ascii) : bool := bool_decide (c ∈ ["-"; "+"; " "; "#"; "0"]).
Definition islenmod (c : ascii) : bool := bool_decide (c ∈ ["h"; "l"; "L"]).

Definition spec_conv (t : text) : option (nat * ascii) :=
  match t with
  | "(" :: _ => None
  | _ =>
      let t1 := drop_while isflag t in
      match t1 with
      | "*" :: _ => None
      | _ =>
          let t2 := drop_while isdigit t1 in
          let t3 := match t2 with
                    | "." :: "*" :: _ => None
                    | "." :: t2' => Some (drop_while isdigit t2')
                    | _ => Some t2
                    end in
          match t3 with
          | None => None
          | Some t3 =>
              let t4 := match t3 with
                        | c :: t3' => if islenmod c then t3' else t3
                        | [] => []
                        end in
              match t4 with
              | c :: _ => Some (length t - length t4, c)
              | [] => None
              end
          end
      end
  end.

(** [fmt % arg] for a format that ends with a plain [%s] of its own, as
    every case line of the generator does.  [%%] writes a percent sign
    and takes no argument; the plain [%s] writes the argument; any other
    conversion either raises at once (a percent sign as the conversion
    character after flags, a width, a precision or a length modifier is
    an unsupported format character) or takes the only argument, so that
    the closing [%s] raises: the result is [None] for each of them, as it
    is when the argument is left over. *)
Fixpoint percent_from (arg : text) (used : bool) (skip : nat) (s : text)
  : option text :=
  match s with
  | [] => if used then Some [] else None
  | c :: t =>
      match skip with
      | S k => percent_from arg used k t
      | O =>
          if bool_decide (c = "%") then
            match spec_conv t with
            | Some (O, "%") => ("%" ::.) <$> percent_from arg used 1 t
            | Some (O, "s") =>
                if used then None
                else (arg ++.) <$> percent_from arg true 1 t
            | _ => None
            end
          else (c ::.) <$> percent_from arg used 0 t
      end
  end.
Definition percent (fmt arg : text) : option text :=
  percent_from arg false 0 fmt.

(** [fmt.format(arg)] for the replacement field [{}] and the escapes
    of the two braces; [None] where Python raises [ValueError]
    (a single brace) or [IndexError] (a second field). *)
Fixpoint format_from (arg : text) (used : bool) (skip : nat) (s : text)
  : option text :=
  match s with
  | [] => Some []
  | c :: t =>
      match skip with
      | S k => format_from arg used k t
      | O =>
          match c, t with
          | "{", "{" :: _ => ("{" ::.) <$> format_from arg used 1 t
          | "}", "}" :: _ => ("}" ::.) <$> format_from arg used 1 t
          | "{", "}" :: _ =>
              if used then None
              else (arg ++.) <$> format_from arg true 1 t
          | "{", _ | "}", _ => None
          | _, _ => (c ::.) <$> format_from arg used 0 t
          end
      end
  end.
Definition format (fmt arg : text) : option text :=
  format_from arg false 0 fmt.

(** *** [safe_substitute] of [string.Template]

    The pattern of [string.Template]: after the delimiter [$] come, in
    this order, a second [$] (escaped), an identifier (named), an
    identifier in braces (braced), or nothing (invalid).  Identifiers
    are ASCII, in either case. *)
Definition idstart (c : ascii) : bool :=
  bool_decide (c = "_") || islower c || isupper c.
Definition idchar (c : ascii) : bool := idstart c || isdigit c.

Inductive placeholder :=
  | Escaped
  | Named (name : text)
  | Braced (name : text)
  | Invalid.

Definition scan_placeholder (t : text) : placeholder :=
  match t with
  | "$" :: _ => Escaped
  | "{" :: c :: t' =>
      if idstart c then
        let name := c :: take_while idchar t' in
        match drop_while idchar t' with
        | "}" :: _ => Braced name
        | _ => Invalid
        end
      else Invalid
  | c :: t' => if idstart c then Named (c :: take_while idchar t') else Invalid
  | [] => Invalid
  end.

Definition key (name : text) : string := String.string_of_list_ascii name.

(** [safe_substitute]: a placeholder with no entry in the mapping, and
    an invalid one, stay as they are; [$$] becomes [$]. *)
Fixpoint substitute_from (m : gmap string text) (skip : nat) (s : text)
  : text :=
  match s with
  | [] => []
  | c :: t =>
      match skip with
      | S k => substitute_from m k t
      | O =>
          if bool_decide (c = "$") then
            match scan_placeholder t with
            | Escaped => "$" :: substitute_from m 1 t
            | Named name =>
                match m !! key name with
                | Some v => v ++ substitute_from m (length name) t
                | None => c :: substitute_from m 0 t
                end
            | Braced name =>
                match m !! key name with
                | Some v => v ++ substitute_from m (length name + 2) t
                | None => c :: substitute_from m 0 t
                end
            | Invalid => c :: substitute_from m 0 t
            end
          else c :: substitute_from m 0 t
      end
  end.
Definition safe_substitute (template : text) (m : gmap string text) : text :=
  substitute_from m 0 template.


End PyFormat.
Export PyFormat.

(** *** The regular expressions of the generator *)
Module PyRe.
Local Open Scope char_scope.

Definition isblank (c : ascii) : bool := bool_decide (c ∈ [" "; "009"]).
Definition notnl (c : ascii) : bool := negb (bool_decide (c = "010")).

(** [usage:\s+(\S+)], ignoring case, tried at the head of [s]: the
    length of the keyword with its blanks, and the group. *)
Definition usage_at (s : text) : option (nat * text) :=
  if bool_decide (lower <$> take 6 s = py "usage:") then
    let blanks := take_while isspace (drop 6 s) in
    let token := take_while (λ c, negb (isspace c))
                            (drop (6 + length blanks) s) in
    match blanks, token with
    | _ :: _, _ :: _ => Some (6 + length blanks, token)
    | _, _ => None
    end
  else None.

(** [re.search(r'usage:\s+(\S+)', s, re.IGNORECASE)], the group 1 of the
    match ([None] when there is no match). *)
Fixpoint search_usage_cmd (s : text) : option text :=
  match usage_at s with
  | Some (_, token) => Some token
  | None => match s with
            | [] => None
            | _ :: t => search_usage_cmd t
            end
  end.

(** [re.sub(r'^(usage:\s+)\S+', '\g<1>$CMD', s, count=1,
    flags=re.IGNORECASE)] *)
Definition sub_usage_cmd (s : text) : text :=
  match usage_at s with
  | Some (n, token) => take n s ++ py "$CMD" ++ drop (n + length token) s
  | None => s
  end.

(** [re.sub('^[ \t]+-', 'options:\n\\g<0>', s, count=1,
    flags=re.MULTILINE)] *)
Definition option_line (s : text) : bool :=
  match s, drop_while isblank s with
  | c :: _, "-" :: _ => isblank c
  | _, _ => false
  end.
Fixpoint add_options_header_from (bol : bool) (s : text) : text :=
  match s with
  | [] => []
  | c :: t =>
      if bol && option_line s then py "options:
" ++ s
      else c :: add_options_header_from (bool_decide (c = "010")) t
  end.
Definition add_options_header (s : text) : text :=
  add_options_header_from true s.

(** ['^[\t ]*# [^A-Z].+\n'] at the start of a line: the length of the
    match.  The class [[^A-Z]] takes a line break too. *)
Definition comment_line (s : text) : option nat :=
  match drop_while isblank s with
  | a :: b :: c :: s2 =>
      if bool_decide (a = "#") && bool_decide (b = " ") && negb (isupper c)
      then
        let body := take_while notnl s2 in
        match body, drop (length body) s2 with
        | _ :: _, d :: _ =>
            if bool_decide (d = "010")
            then Some (length s - length s2 + length body + 1)
            else None
        | _, _ => None
        end
      else None
  | _ => None
  end.

(** [re.sub('^[\t ]*# [^A-Z].+\n', '', s, flags=re.MULTILINE)] *)
Fixpoint strip_comment_lines_from (skip : nat) (bol : bool) (s : text)
  : text :=
  match s with
  | [] => []
  | c :: t =>
      match skip with
      | S k => strip_comment_lines_from k true t
      | O =>
          match (if bol then comment_line s else None) with
          | Some (S k) => strip_comment_lines_from k true t
          | _ => c :: strip_comment_lines_from 0 (bool_decide (c = "010")) t
          end
      end
  end.
Definition strip_comment_lines (s : text) : text :=
  strip_comment_lines_from 0 true s.

(** ['  +# .+'] at the head of [s]: the length of the match. *)
Definition inline_comment (s : text) : option nat :=
  let spaces := take_while (λ c, bool_decide (c = " ")) s in
  match drop (length spaces) s with
  | a :: b :: s2 =>
      if bool_decide (a = "#") && bool_decide (b = " ") then
        match take_while notnl s2 with
        | [] => None
        | body => if decide (2 ≤ length spaces)
                  then Some (length spaces + 2 + length body)
                  else None
        end
      else None
  | _ => None
  end.

(** [re.sub('  +# .+', '', s)] *)
Fixpoint strip_inline_comments_from (skip : nat) (s : text) : text :=
  match s with
  | [] => []
  | c :: t =>
      match skip with
      | S k => strip_inline_comments_from k t
      | O =>
          match inline_comment s with
          | Some (S k) => strip_inline_comments_from k t
          | _ => c :: strip_inline_comments_from 0 t
          end
      end
  end.
Definition strip_inline_comments (s : text) : text :=
  strip_inline_comments_from 0 s.

End PyRe.
Export PyRe.

(** ** The template and the fragment library (module constants) *)

Definition PARSER_TEMPLATE : text := py
"${__SHEBANG__}

CMD=${__CMD__}${__STRIP_EXT__}
USAGE=`${__USAGE_MSG__}`${__HELP__}

# Convenience functions
${__HELPERS__}

# Parse command-line options${__RANDOM_EOL__}
set -- `$@` `${EOL:=$(printf '\1\3\3\7')}`  # end-of-line-marker${__AUX_VARS__}
while [ `$1` != `$EOL` ]; do
	opt=`$1`; shift
	case `$opt` in

		#EDIT HERE: defined options
		${__CASES__}
		-h | --help ) ${__ASSERT_NOARG__}printf `%s\n` `${__HELP_VAR__}`; exit 0;;

		# parse remaining arguments as positional
		--) while [ `$1` != `$EOL` ]; do set -- `$@` `$1`; shift; done;;
		# long options: convert `--opt=arg` to `--opt` `arg`
		--[!=]*=*) ${__LONG_OPTION__}
		# invalid or unknown options
		${__BAD_OPTION__}
		# short options: convert `-abc` to `-a` `-bc`
		-?*) ${__SHORT_OPTION__}
		# positional argument, rotate to the end
		*) set -- `$@` `$opt`;;
	esac
done; shift  # $EOL

# Set/unset variables${__DEFAULTS__}
unset ${__UNSET_VARS__}
unset -f ${__UNSET_FUNCS__}

${__DEBUG_PRINT__}
".

Definition HELPERS_FULL : text := py
"assert_arg () {
	if [ `$1` = `$EOL` ] ||
			{ [ `$1` = '--' ] && [ `$2` != `--` ]; } ||
			{ [ `${3%?}` = '-' ] && [ `$3` = `$4` ]; }
		then exit_usage `missing argument for option '$3'`
	fi
}
assert_noarg () {  # for long options only
	if [ `$1` = `$2` ]
		then exit_usage `option '$2' doesn't accept arguments`
	fi
}
exit_error () { printf >&2 `%s:  ERROR: %s\n` `$CMD` `$1`; exit `${2-1}`; }  # default exit status: 1
exit_usage () { printf >&2 `%s:  %s\n%s\n` `$CMD` `$1` `$USAGE`; exit 2; }".

Definition HELPERS_MINIMAL : text := py
"exit2 () { printf >&2 `%s:  %s: '%s'\n%s\n` `$CMD` `$1` `$2` `$USAGE`; exit 2; }
check () { { [ `$1` != `$EOL` ] && [ `$1` != '--' ]; } || exit2 `missing argument` `$2`; }".

Definition BAD_OPTION_FULL : text := py
"--*[!-a-z0-9]* | --*--*) exit_usage `invalid option: '$opt'`;;
		--[a-z0-9]*[a-z0-9])     exit_usage `unknown long option: '$opt'`;;
		-*[!A-Za-z0-9]*)         exit_usage `invalid option: '$opt'`;;
		-[A-Za-z0-9])            exit_usage `unknown short option: '$opt'`;;".

Definition BAD_OPTION_MINIMAL : text := py
"-[A-Za-z0-9] | -*[!A-Za-z0-9]*) exit2 `invalid option` `$opt`;;".

Definition RANDOM_EOL : text := py
"
if [ -c /dev/random ]  # try to obtain a random string
	then EOL=$(dd 2>/dev/null if=/dev/random bs=8 count=1 | od -t x8 -A n)
fi  # fall back to a fixed *binary* string if it fails".

Definition DEBUG_PRINT : text := py
"# Print collected options and arguments
${{__DEBUG_IF__}}for var in {}
	do eval `printf \`%s = '%s'\n\` '$var' \`\${{opt_$var-}}\``
done && printf `\$@ = (%s)\n` `$*`
".

Definition DOC_EXAMPLE : text := py
"This is brief description of what the program does.

  -h, --help            show this message
  -f, --flag            do stuff differently
  -n TEXT, --name=TEXT  use TEXT as name [default: Alice]
  --only-long           option without short version
  -v                    verbose mode
".

(** [SNIPPET]: the entries that depend on the style take [minimal]. *)
Module SNIPPET.

Definition shebang : text := py "/bin/sh -eu".

Definition cmd : text := py "`${0##*/}`".

Definition strip_ext : text := py "; [ `${CMD%.*}` ] && CMD=`${CMD%.*}`  # `bin/script.sh` -> `script`".

Definition help : text := py "
HELP_MSG=`${__HELP_MSG__}`".

Definition helpers (minimal : bool) : text :=
  if minimal then HELPERS_MINIMAL else HELPERS_FULL.

Definition random_eol : text := RANDOM_EOL.

Definition aux_vars (minimal : bool) : text :=
  if minimal
  then []
  else py "
long=; short=; val=  # last long/short option/value split
".

Definition assert_arg (minimal : bool) : text :=
  if minimal
  then py "check `$1` `$opt`; opt_%s=`$1`; shift;;"
  else py "assert_arg `$1` `$val` `$opt` `$short`; opt_%s=`$1`; shift;;".

Definition assert_noarg (minimal : bool) : text :=
  if minimal
  then []
  else py "assert_noarg `$opt` `$long`; ".

Definition long_option (minimal : bool) : text :=
  if minimal
  then py "set -- `${opt%%=*}` `${opt#*=}` `$@`;;"
  else py "long=`${opt%%=*}`; val=`${opt#*=}`; set -- `$long` `$val` `$@`;;".

Definition short_option (minimal : bool) : text :=
  if minimal
  then py "other=`${opt#-?}`; set -- `${opt%$other}` `-${other}` `$@`;;"
  else py "other=`${opt#-?}`; short=`${opt%$other}`; set -- `$short` `-${other}` `$@`;;".

Definition bad_option (minimal : bool) : text :=
  if minimal then BAD_OPTION_MINIMAL else BAD_OPTION_FULL.

Definition unset_vars (minimal : bool) : text :=
  if minimal
  then py "CMD EOL USAGE opt other"
  else py "EOL HELP long opt other short val # CMD USAGE".

Definition unset_funcs (minimal : bool) : text :=
  if minimal
  then py "check exit2"
  else py "assert_arg assert_noarg # exit_error exit_usage".

Definition debug_if : text := py "[ `${SOPIX_DEBUG-}` ] && ".

Definition debug_print : text := DEBUG_PRINT.

End SNIPPET.

(** ** The option model *)

(** [docopt.Option].  [argcount] is 0 or 1; [value] is the default of an
    option that takes an argument ([None] when it has none, and for an
    option without argument, whose Python value is [False]).  Two options
    are equal when their four fields are, as [docopt] compares them (by
    [repr]). *)
Record Option := mkOption {
  short : option text;
  long : option text;
  argcount : nat;
  value : option text;
}.

Global Instance Option_eq_dec : EqDecision Option.
Proof. solve_decision. Defined.

(** Exceptions that leave the generator. *)
Inductive PyError :=
  | DocoptLanguageError (msg : text)
  | AttributeError
  | TypeError
  | FormatError
  | InvalidShebang (shebang : text).

Abbreviation PyResult := (sum PyError).

Notation "'let?' x := e 'in' k" :=
  (match e with inl err => inl err | inr x => k end)
  (at level 10, x pattern, e at level 100, k at level 200,
   format "'[v' 'let?'  x  :=  e  'in' '/' k ']'").

(** The grammar parser the generator calls (the [docopt] module).
    [parse_pattern formal defaults] stands for
    [docopt.parse_pattern(formal, defaults).flat(docopt.Option)]: it gives
    the options of the usage pattern, and the list [defaults] as the call
    leaves it (the parser appends the options it meets for the first time
    to the list it is given); it raises [DocoptLanguageError]. *)
Class Docopt := {
  parse_section : text → text → list text;
  formal_usage : text → text;
  parse_defaults : text → list Option;
  parse_pattern : text → list Option → PyResult (list Option * list Option);
}.

(** The order in which a Python [set] of options is iterated.  It follows
    the hash values of the elements, which differ from one interpreter
    process to the next: any order without repetition is possible. *)
Class SetOrder := {
  set_iter : list Option → list Option;
  set_iter_NoDup l : NoDup (set_iter l);
  set_iter_elem_of l o : o ∈ set_iter l ↔ o ∈ l;
}.

Module Model.
Local Open Scope char_scope.

(** [a or b] on strings that may be [None]. *)
Definition or_else (a : option text) (b : option text) : option text :=
  match a with
  | Some (c :: s) => Some (c :: s)
  | _ => b
  end.
Definition or_text (a : option text) (b : text) : text :=
  default b (or_else a (Some b)).
Definition truthy (a : option text) : bool :=
  match a with Some (_ :: _) => true | _ => false end.

(** Python's order on strings and on pairs of strings. *)
Fixpoint text_lt (a b : text) : bool :=
  match a, b with
  | _, [] => false
  | [], _ :: _ => true
  | x :: a', y :: b' =>
      (code x <? code y)%nat || bool_decide (x = y) && text_lt a' b'
  end.

Definition sort_key (o : Option) : text * text :=
  (or_text (long o) [], or_text (short o) []).
Definition key_lt (k1 k2 : text * text) : bool :=
  text_lt k1.1 k2.1 || bool_decide (k1.1 = k2.1) && text_lt k1.2 k2.2.

(** [sorted(l, key=key)]: the stable sort. *)
Section sorted.
Context {A K : Type} (lt : K → K → bool) (key : A → K).
Fixpoint insert_sorted (x : A) (l : list A) : list A :=
  match l with
  | [] => [x]
  | y :: l' => if lt (key y) (key x) then y :: insert_sorted x l'
               else x :: l
  end.
Definition sorted (l : list A) : list A := foldr insert_sorted [] l.
End sorted.

(** The identifier of an option:
    [(opt.long or opt.short).lstrip("-").replace("-", "_")]. *)
Definition opt_name (o : Option) : PyResult text :=
  match or_else (long o) (short o) with
  | Some s => inr (replace (lstrip_chars ["-"] s) (py "-") (py "_"))
  | None => inl AttributeError
  end.

End Model.
Export Model.

(** ** The generator *)

(** The keyword arguments of [generate_parser]. *)
Record Config := mkConfig {
  minimal : bool;
  strip_comments : bool;
  expand_tabs : Z;
  shebang : text;
  command : option text;
  keep_command_ext : bool;
  random_eol : bool;
  debug_print : option bool;
}.

Definition default_config : Config := {|
  minimal := false;
  strip_comments := false;
  expand_tabs := 4;
  shebang := py "/bin/sh -eu";
  command := None;
  keep_command_ext := false;
  random_eol := false;
  debug_print := None;
|}.

(** What [_parse_docstring] returns. *)
Record Parsed := mkParsed {
  parsed_cmd : option text;
  usage_msg : text;
  help_msg : text;
  options : list Option;
}.

Section generator.
Context `{!Docopt, !SetOrder}.

Definition placeholder_usage : text := py "Usage:  $CMD [options] [ARGS...]".

(** The usage line made from the options when the text has none;
    [short_flags] is the set of the options known by a short name that
    take no argument. *)
Definition last_char (o : Option) : list ascii :=
  match reverse (or_text (short o) []) with c :: _ => [c] | [] => [] end.

Definition is_short_flag (o : Option) : bool :=
  truthy (short o) && bool_decide (argcount o = 0).

Fixpoint usage_items (short_flags defaults : list Option)
  : PyResult (list (option text)) :=
  match defaults with
  | [] => inr []
  | opt :: rest =>
      if bool_decide (opt ∈ short_flags) then usage_items short_flags rest
      else
        let s := or_else (short opt) (long opt) in
        let? s :=
          (if bool_decide (argcount opt = 0) then inr s
           else match s with
                | Some s => inr (Some (s ++ (if startswith s (py "--")
                                             then py "=ARG" else py " ARG")))
                | None => inl AttributeError
                end) in
        let? items := usage_items short_flags rest in
        inr (s :: items)
  end.

Definition usage_from_options (defaults : list Option) : PyResult text :=
  let short_flags := set_iter (filter (λ o, is_short_flag o = true) defaults) in
  let bundle :=
    match short_flags with
    | [] => []
    | _ => [Some ("-"%char :: sorted Nat.ltb code (mjoin (last_char <$> short_flags)))]
    end in
  let? items := usage_items short_flags defaults in
  match mapM id (bundle ++ items) with
  | Some items =>
      inr (py "Usage:  $CMD [" ++ join (py "] [") items ++ py "] [ARGS...]")
  | None => inl TypeError
  end.

Definition _parse_docstring (docstring : text) : PyResult Parsed :=
  let docopt_doc := docstring in
  let usage_sections := parse_section (py "usage:") docopt_doc in
  if decide (1 < length usage_sections) then
    inl (DocoptLanguageError
           (py "More than one `usage:` (case-insensitive)."))
  else
    (* Add the options header if it is not present *)
    let docopt_doc :=
      match parse_section (py "options:") docopt_doc with
      | [] => add_options_header docopt_doc
      | _ => docopt_doc
      end in
    (* Add a placeholder usage section, or extract the command name *)
    let? (docopt_doc, usage, cmd) :=
      match usage_sections with
      | [] => inr (placeholder_usage ++ py "

" ++ docopt_doc, None, None)
      | usage :: _ =>
          match search_usage_cmd usage with
          | None => inl AttributeError
          | Some cmd =>
              inr (docopt_doc, Some usage,
                   if bool_decide (cmd = py "$CMD") then None else Some cmd)
          end
      end in
    (* Parse the usage patterns *)
    let formal := formal_usage (or_text usage placeholder_usage) in
    let defaults := parse_defaults docopt_doc in
    let? (opts, defaults) := parse_pattern formal defaults in
    (* Create the usage section from the options if it is missing *)
    let? (usage, help) :=
      match usage with
      | None =>
          let? usage := usage_from_options defaults in
          inr (usage, py "$USAGE

" ++ strip docstring)
      | Some usage =>
          inr (usage, strip (replace docstring usage (py "$USAGE")))
      end in
    let opts := sorted key_lt sort_key (set_iter (opts ++ defaults)) in
    inr {| parsed_cmd := cmd; usage_msg := usage; help_msg := help;
           options := opts |}.

(** The loop over the options: the case arms and the pairs of a
    variable name and its default. *)
Definition case_line (minimal : bool) (max_len : nat) (opt : Option)
  : PyResult (option (text * (text * text))) :=
  let? name := opt_name opt in
  let line := or_text (short opt) (py "  ") in
  let line := line ++
    (if truthy (short opt) && truthy (long opt) then py " | "
     else if bool_decide (max_len = 0) then [] else py "   ") in
  let line := line ++ format_width (or_text (long opt) []) max_len ++ py " ) " in
  let emit line default_value :=
    match percent line name with
    | Some case => inr (Some (case, (name, default_value)))
    | None => inl FormatError
    end in
  if negb (bool_decide (argcount opt = 0)) then
    emit (line ++ SNIPPET.assert_arg minimal)
         (match value opt with
          | None => []
          | Some v => py "`" ++ replace v (py "`") (py "\`") ++ py "`"
          end)
  else if bool_decide (name = py "help") then inr None
  else
    emit (line ++ (if truthy (long opt) then SNIPPET.assert_noarg minimal
                   else [])
               ++ py "opt_%s=`true`;;")
         [].

Fixpoint case_lines (minimal : bool) (max_len : nat) (opts : list Option)
  : PyResult (list text * list (text * text)) :=
  match opts with
  | [] => inr ([], [])
  | opt :: rest =>
      let? r := case_line minimal max_len opt in
      let? (cases, name_default) := case_lines minimal max_len rest in
      match r with
      | Some (case, nd) => inr (case :: cases, nd :: name_default)
      | None => inr (cases, name_default)
      end
  end.

(** The shebang line (lines 144-150). *)
Definition shebang_line (shebang : text) : PyResult text :=
  match shebang with
  | [] => inr []
  | _ =>
      if bool_decide ("010"%char ∈ shebang) || bool_decide (2 < length (split shebang))
      then inl (InvalidShebang shebang)
      else if startswith shebang (py "#!") then inr shebang
      else inr (py "#!" ++ strip shebang)
  end.

Definition early_snippets : list string :=
  ["__HELP__"; "__CASES__"; "__HELPERS__"; "__RANDOM_EOL__";
   "__BAD_OPTION__"; "__DEBUG_PRINT__"].

(** The substitution map [snippets]. *)
Definition snippets_of (cfg : Config) (doc : Parsed) (shebang : text)
  (cases : list text) (name_default : list (text * text))
  (printf : text) : gmap string text :=
  let resolved_cmd := or_else (command cfg) (parsed_cmd doc) in
  let usage :=
    if truthy resolved_cmd then sub_usage_cmd (usage_msg doc)
    else usage_msg doc in
  let help :=
    if bool_decide (strip (help_msg doc) = py "$USAGE")
    then <["__HELP_VAR__" := py "$USAGE"]> (<["__HELP__" := []]> ∅)
    else <["__HELP_VAR__" := py "$HELP_MSG"]>
           (<["__HELP_MSG__" := help_msg doc]>
              (<["__HELP__" := SNIPPET.help]> ∅)) in
  let defaults :=
    py "
: `" ++ join (py "` `")
           ((λ nd, py "${opt_" ++ nd.1 ++ py "=" ++ nd.2 ++ py "}")
              <$> name_default) ++ py "`" in
  <["__DEBUG_PRINT__" := printf]> $
  <["__DEBUG_IF__" := match debug_print cfg with
                      | None => SNIPPET.debug_if
                      | Some _ => []
                      end]> $
  <["__UNSET_FUNCS__" := SNIPPET.unset_funcs (minimal cfg)]> $
  <["__UNSET_VARS__" := SNIPPET.unset_vars (minimal cfg)]> $
  <["__DEFAULTS__" := if minimal cfg then [] else defaults]> $
  <["__BAD_OPTION__" := SNIPPET.bad_option (minimal cfg)]> $
  <["__SHORT_OPTION__" := SNIPPET.short_option (minimal cfg)]> $
  <["__LONG_OPTION__" := SNIPPET.long_option (minimal cfg)]> $
  <["__ASSERT_NOARG__" := SNIPPET.assert_noarg (minimal cfg)]> $
  <["__CASES__" := lstrip_chars ["009"%char] (indent (join (py "
") cases) (py "		"))]> $
  <["__RANDOM_EOL__" := if random_eol cfg then SNIPPET.random_eol else []]> $
  <["__AUX_VARS__" := SNIPPET.aux_vars (minimal cfg)]> $
  <["__HELPERS__" := SNIPPET.helpers (minimal cfg)]> $
  (help ∪
  (<["__USAGE_MSG__" := usage]> $
   <["__STRIP_EXT__" := if keep_command_ext cfg || truthy (parsed_cmd doc)
                        then [] else SNIPPET.strip_ext]> $
   <["__CMD__" := or_text resolved_cmd SNIPPET.cmd]> $
   <["__SHEBANG__" := shebang]> ∅)).

(** The text before the comments are stripped and the ends trimmed
    (lines 224-231). *)
Definition assemble (cfg : Config) (snippets : gmap string text) : text :=
  let parser := PARSER_TEMPLATE in
  let parser :=
    safe_substitute parser
      (filter (λ kv, kv.1 ∈ early_snippets) snippets) in
  let parser :=
    if decide (0 < expand_tabs cfg)%Z
    then replace parser (py "	") (replicate (Z.to_nat (expand_tabs cfg)) " "%char)
    else parser in
  safe_substitute parser snippets.

Definition finish (cfg : Config) (parser : text) : text :=
  let parser :=
    if strip_comments cfg
    then strip_inline_comments (strip_comment_lines parser)
    else parser in
  strip parser ++ py "
".

(** The body of [generate_parser] after the text has been parsed. *)
Definition emit_parser (cfg : Config) (doc : Parsed) : PyResult text :=
  let? shebang := shebang_line (shebang cfg) in
  let max_len :=
    max_list_with (λ o, length (or_text (long o) [])) (options doc) in
  let? (cases, name_default) :=
    case_lines (minimal cfg) max_len (options doc) in
  let? printf :=
    match debug_print cfg with
    | Some false => inr []
    | _ => match format SNIPPET.debug_print (join (py " ") (name_default.*1)) with
           | Some s => inr s
           | None => inl FormatError
           end
    end in
  inr (finish cfg
         (assemble cfg
            (snippets_of cfg doc shebang cases name_default printf))).

Definition generate_parser (docstring : text) (cfg : Config) : PyResult text :=
  let? doc := _parse_docstring docstring in
  emit_parser cfg doc.

End generator.

(** ** The generated parser at run time

    The shell text that [generate_parser] emits is the same program for
    every option list up to its case arms; it is embedded here as a
    state machine over the positional parameters.  The embedding covers
    option spellings and identifiers made of characters that the shell
    reads literally (letters, digits, dash, underscore), the C locale for
    the ranges of the patterns, and default values that the shell reads
    literally between double quotes. *)
Module Shell.
Local Open Scope char_scope.

(** *** Patterns of [case] *)
Inductive glob_item :=
  | GLit (c : ascii)
  | GAny
  | GStar
  | GClass (negated : bool) (ranges : list (ascii * ascii)).

(** A bracket expression, read after its [[] or [[!]. *)
Fixpoint parse_class (s : text) : option (list (ascii * ascii) * text) :=
  match s with
  | [] => None
  | "]" :: rest => Some ([], rest)
  | a :: t =>
      match t with
      | "-" :: b :: rest =>
          if bool_decide (b = "]")
          then prod_map ((a, a) ::.) id <$> parse_class t
          else prod_map ((a, b) ::.) id <$> parse_class rest
      | _ => prod_map ((a, a) ::.) id <$> parse_class t
      end
  end.

Fixpoint glob_of_from (skip : nat) (s : text) : list glob_item :=
  match s with
  | [] => []
  | c :: t =>
      match skip with
      | S k => glob_of_from k t
      | O =>
          match c with
          | "*" => GStar :: glob_of_from 0 t
          | "?" => GAny :: glob_of_from 0 t
          | "[" =>
              let (negated, body) :=
                match t with
                | "!" :: body => (true, body)
                | _ => (false, t)
                end in
              match parse_class body with
              | Some (ranges, rest) =>
                  GClass negated ranges :: glob_of_from (length t - length rest) t
              | None => GLit c :: glob_of_from 0 t
              end
          | _ => GLit c :: glob_of_from 0 t
          end
      end
  end.
Definition glob_of (pattern : string) : list glob_item :=
  glob_of_from 0 (py pattern).

Definition in_class (ranges : list (ascii * ascii)) (c : ascii) : bool :=
  existsb (λ r, between r.1 r.2 c) ranges.

Fixpoint glob (p : list glob_item) (s : text) : bool :=
  match p with
  | [] => bool_decide (s = [])
  | GLit c :: p' =>
      match s with
      | c' :: s' => bool_decide (c = c') && glob p' s'
      | [] => false
      end
  | GAny :: p' =>
      match s with
      | _ :: s' => glob p' s'
      | [] => false
      end
  | GClass negated ranges :: p' =>
      match s with
      | c :: s' => xorb negated (in_class ranges c) && glob p' s'
      | [] => false
      end
  | GStar :: p' =>
      (fix star (s : text) : bool :=
         glob p' s || match s with
                      | [] => false
                      | _ :: s' => star s'
                      end) s
  end.

(** [case $opt in p1 | p2 ) ...] *)
Definition matches (patterns : list string) (opt : text) : bool :=
  existsb (λ p, glob (glob_of p) opt) patterns.

(** *** Parameter expansions *)

(** [${opt%%=*}] and [${opt#*=}]: around the first equals sign. *)
Definition before_eq (opt : text) : text :=
  take_while (λ c, negb (bool_decide (c = "="))) opt.
Definition after_eq (opt : text) : text :=
  match drop_while (λ c, negb (bool_decide (c = "="))) opt with
  | _ :: v => v
  | [] => opt
  end.
(** [${opt#-?}] *)
Definition strip_dash_char (opt : text) : text :=
  match opt with
  | "-" :: _ :: other => other
  | _ => opt
  end.
(** [${opt%$other}], for an [other] without pattern characters. *)
Definition strip_suffix (opt other : text) : text :=
  if bool_decide (drop (length opt - length other) opt = other)
  then take (length opt - length other) opt
  else opt.
(** [${3%?}] *)
Definition strip_last (s : text) : text := take (length s - 1) s.

(** *** The state of the loop *)
Record State := mkState {
  args : list text;               (* the positional parameters *)
  vars : gmap string text;        (* the variables opt_NAME *)
  sh_long : text;                 (* long, short, val: the last split *)
  sh_short : text;
  sh_val : text;
}.

Inductive Outcome :=
  | Parsed (vars : gmap string text) (positional : list text)
  | HelpShown
  | UsageError (message : text)
  | ShellError.

(** The exit status of the script. *)
Definition exit_code (o : Outcome) : nat :=
  match o with
  | Parsed _ _ | HelpShown => 0
  | UsageError _ => 2
  | ShellError => 1
  end.

(** What [exit_usage] and [exit2] write to the error stream. *)
Definition stderr_of (cmd usage message : text) : text :=
  cmd ++ py ":  " ++ message ++ py "
" ++ usage ++ py "
".

Definition var_of (name : text) : string := key (py "opt_" ++ name).

(** The case arms of the options: the options that [case_lines] keeps,
    each with its identifier, in the order of the option list. *)
Definition arm_of (o : Option) : option (Option * text) :=
  match opt_name o with
  | inr name =>
      if negb (bool_decide (argcount o = 0)) then Some (o, name)
      else if bool_decide (name = py "help") then None
      else Some (o, name)
  | inl _ => None
  end.
Definition arms_of (opts : list Option) : list (Option * text) :=
  omap arm_of opts.

Definition spelled (o : Option) (opt : text) : bool :=
  truthy (short o) && bool_decide (short o = Some opt)
  || truthy (long o) && bool_decide (long o = Some opt).

Definition find_arm (arms : list (Option * text)) (opt : text)
  : option (Option * text) :=
  snd <$> list_find (λ a, spelled a.1 opt = true) arms.

(** The parameters before the first one equal to [eol]. *)
Fixpoint take_until (eol : text) (l : list text) : list text :=
  match l with
  | x :: l' => if bool_decide (x = eol) then [] else x :: take_until eol l'
  | [] => []
  end.

Local Close Scope char_scope.

Section run.
Context (minimal : bool) (arms : list (Option * text)) (EOL : text).

Definition quoted (s : text) : text := py "'" ++ s ++ py "'".

(** [exit_usage "..."] of the full style, [exit2 "..." "$opt"] of the
    minimal one. *)
Definition missing_argument (opt : text) : Outcome :=
  UsageError (if minimal then py "missing argument: " ++ quoted opt
              else py "missing argument for option " ++ quoted opt).
Definition no_argument_accepted (long : text) : Outcome :=
  UsageError (py "option " ++ quoted long ++ py " doesn't accept arguments").

(** [assert_arg "$1" "$val" "$opt" "$short"] and [check "$1" "$opt"]:
    [true] when the script exits. *)
Definition assert_arg (a1 a2 a3 a4 : text) : bool :=
  bool_decide (a1 = EOL)
  || bool_decide (a1 = py "--") && negb (bool_decide (a2 = py "--"))
  || bool_decide (strip_last a3 = py "-") && bool_decide (a3 = a4).
Definition check (a1 : text) : bool :=
  negb (negb (bool_decide (a1 = EOL)) && negb (bool_decide (a1 = py "--"))).

(** [assert_noarg "$opt" "$long"] *)
Definition assert_noarg (a1 a2 : text) : bool := bool_decide (a1 = a2).

(** The arms for invalid and unknown options. *)
Definition bad_option (opt : text) : option Outcome :=
  if minimal then
    if matches ["-[A-Za-z0-9]"; "-*[!A-Za-z0-9]*"] opt
    then Some (UsageError (py "invalid option: " ++ quoted opt))
    else None
  else
    if matches ["--*[!-a-z0-9]*"; "--*--*"] opt
    then Some (UsageError (py "invalid option: " ++ quoted opt))
    else if matches ["--[a-z0-9]*[a-z0-9]"] opt
    then Some (UsageError (py "unknown long option: " ++ quoted opt))
    else if matches ["-*[!A-Za-z0-9]*"] opt
    then Some (UsageError (py "invalid option: " ++ quoted opt))
    else if matches ["-[A-Za-z0-9]"] opt
    then Some (UsageError (py "unknown short option: " ++ quoted opt))
    else None.

(** [while [ "$1" != "$EOL" ]; do set -- "$@" "$1"; shift; done] *)
Definition rotate_to_eol (rest : list text) : list text :=
  let before := take_until EOL rest in
  drop (length before) rest ++ before.

(** One turn of the loop on [opt="$1"; shift]: the next state, or the
    exit of the script. *)
Definition step (opt : text) (st : State) : State + Outcome :=
  let a1 := default [] (head (args st)) in
  match find_arm arms opt with
  | Some (o, name) =>
      if negb (bool_decide (argcount o = 0)) then
        if (if minimal then check a1
            else assert_arg a1 (sh_val st) opt (sh_short st))
        then inr (missing_argument opt)
        else inl {| args := tail (args st);
                    vars := <[var_of name := a1]> (vars st);
                    sh_long := sh_long st; sh_short := sh_short st;
                    sh_val := sh_val st |}
      else
        if negb minimal && truthy (long o) && assert_noarg opt (sh_long st)
        then inr (no_argument_accepted (sh_long st))
        else inl {| args := args st;
                    vars := <[var_of name := py "true"]> (vars st);
                    sh_long := sh_long st; sh_short := sh_short st;
                    sh_val := sh_val st |}
  | None =>
      if matches ["-h"; "--help"] opt then
        if negb minimal && assert_noarg opt (sh_long st)
        then inr (no_argument_accepted (sh_long st))
        else inr HelpShown
      else if matches ["--"] opt then
        inl {| args := rotate_to_eol (args st); vars := vars st;
               sh_long := sh_long st; sh_short := sh_short st;
               sh_val := sh_val st |}
      else if matches ["--[!=]*=*"] opt then
        inl {| args := before_eq opt :: after_eq opt :: args st;
               vars := vars st;
               sh_long := if minimal then sh_long st else before_eq opt;
               sh_short := sh_short st;
               sh_val := if minimal then sh_val st else after_eq opt |}
      else
        match bad_option opt with
        | Some exit => inr exit
        | None =>
            if matches ["-?*"] opt then
              let other := strip_dash_char opt in
              inl {| args := strip_suffix opt other :: ("-"%char :: other)
                               :: args st;
                     vars := vars st;
                     sh_long := sh_long st;
                     sh_short := if minimal then sh_short st
                                 else strip_suffix opt other;
                     sh_val := sh_val st |}
            else
              inl {| args := args st ++ [opt]; vars := vars st;
                     sh_long := sh_long st; sh_short := sh_short st;
                     sh_val := sh_val st |}
        end
  end.

(** [while [ "$1" != "$EOL" ]; do ...; done; shift] *)
Fixpoint loop (fuel : nat) (st : State) : option Outcome :=
  match fuel with
  | O => None
  | S fuel =>
      match args st with
      | [] => Some ShellError
      | opt :: rest =>
          if bool_decide (opt = EOL) then Some (Parsed (vars st) rest)
          else
            match step opt {| args := rest; vars := vars st;
                              sh_long := sh_long st;
                              sh_short := sh_short st;
                              sh_val := sh_val st |} with
            | inl st' => loop fuel st'
            | inr exit => Some exit
            end
      end
  end.

(** [set -- "$@" "$EOL"], the scratch variables empty. *)
Definition initial (argv : list text) : State :=
  {| args := argv ++ [EOL]; vars := ∅;
     sh_long := []; sh_short := []; sh_val := [] |}.

(** [: "${opt_a=A}" "${opt_b=B}" ...] of the full style: a variable
    that is unset takes its default. *)
Definition set_default (vars : gmap string text) (arm : Option * text)
  : gmap string text :=
  match vars !! var_of arm.2 with
  | Some _ => vars
  | None =>
      <[var_of arm.2 :=
          if bool_decide (argcount arm.1 = 0) then []
          else default [] (value arm.1)]> vars
  end.
Definition defaults (vars : gmap string text) : gmap string text :=
  if minimal then vars else foldl set_default vars arms.

Definition run (fuel : nat) (argv : list text) : option Outcome :=
  match loop fuel (initial argv) with
  | Some (Parsed vars positional) => Some (Parsed (defaults vars) positional)
  | r => r
  end.
End run.

(** The fixed end marker, [printf '\1\3\3\7']. *)
Definition EOL_fixed : text := ["001"; "003"; "003"; "007"]%char.

End Shell.

(** ** The wrapper script (lines 335-381) *)

(** The command line of the wrapper once [docopt] has read it, the
    number of [--expand-tabs] already converted. *)
Record Args := mkArgs {
  arg_example : bool;
  arg_full_example : bool;
  arg_minimal : bool;
  arg_strip_comments : bool;
  arg_expand_tabs : Z;
  arg_shebang : text;
  arg_command : option text;
  arg_keep_command_ext : bool;
  arg_random_eol : bool;
  arg_debug_print : bool;
  arg_no_debug_print : bool;
}.

(** The coupled options (lines 352-358) and the arguments of the call
    (lines 370-380). *)
Definition main_config (arg : Args) : Config :=
  let minimal := arg_example arg || arg_minimal arg in
  let shebang := if arg_example arg then [] else arg_shebang arg in
  let keep_command_ext := arg_example arg || arg_keep_command_ext arg in
  let strip_comments := arg_strip_comments arg || minimal in
  let keep_command_ext :=
    keep_command_ext || bool_decide (arg_command arg ≠ None) in
  let debug_print :=
    arg_example arg || arg_full_example arg || arg_debug_print arg in
  {| minimal := minimal;
     strip_comments := strip_comments;
     expand_tabs := arg_expand_tabs arg;
     shebang := shebang;
     command := arg_command arg;
     keep_command_ext := keep_command_ext;
     random_eol := arg_random_eol arg;
     debug_print := if debug_print then Some true
                    else if arg_no_debug_print arg then Some false else None |}.

Definition main `{!Docopt, !SetOrder} (arg : Args) (input : text)
  : PyResult text :=
  let docstring :=
    if arg_example arg || arg_full_example arg then DOC_EXAMPLE else input in
  generate_parser docstring (main_config arg).

(** ** Instances used in the examples *)

(** Two iteration orders of a set: the elements in the order of their last
    insertion, and in the opposite order. *)
Definition last_inserted : SetOrder :=
  {| set_iter := remove_dups;
     set_iter_NoDup := NoDup_remove_dups;
     set_iter_elem_of l o := elem_of_remove_dups l o |}.

Definition first_inserted : SetOrder.
Proof.
  refine {| set_iter l := reverse (remove_dups l) |}.
  - intros l. rewrite reverse_Permutation. apply NoDup_remove_dups.
  - intros l o. rewrite elem_of_reverse. apply elem_of_remove_dups.
Defined.

(** The answers of [docopt] on one text, as read from its definitions:
    the sections named "usage:", the sections named "options:", the formal
    usage, the options of the option descriptions, and the outcome of
    parsing the usage pattern. *)
Definition recorded (usage_sections options_sections : list text)
  (formal : text) (defaults : list Option)
  (pattern : PyResult (list Option * list Option)) : Docopt :=
{| parse_section name _ :=
     if bool_decide (name = py "usage:") then usage_sections
     else options_sections;
   formal_usage _ := formal;
   parse_defaults _ := defaults;
   parse_pattern _ _ := pattern |}.

(** [docopt] on [DOC_EXAMPLE]: no usage section, no options header; the
    placeholder usage has no option of its own. *)
Definition example_defaults : list Option :=
  [ mkOption (Some (py "-h")) (Some (py "--help")) 0 None;
    mkOption (Some (py "-f")) (Some (py "--flag")) 0 None;
    mkOption (Some (py "-n")) (Some (py "--name")) 1 (Some (py "Alice"));
    mkOption None (Some (py "--only-long")) 0 None;
    mkOption (Some (py "-v")) None 0 None ].

Definition docopt_example : Docopt :=
  recorded [] [] (py "( [options] [ARGS...] )") example_defaults
           (inr ([], example_defaults)).

(** The option model of [DOC_EXAMPLE] as [sorted] leaves it. *)
Definition example_options : list Option :=
  [ mkOption (Some (py "-v")) None 0 None;
    mkOption (Some (py "-f")) (Some (py "--flag")) 0 None;
    mkOption (Some (py "-h")) (Some (py "--help")) 0 None;
    mkOption (Some (py "-n")) (Some (py "--name")) 1 (Some (py "Alice"));
    mkOption None (Some (py "--only-long")) 0 None ].

Global Instance PyError_eq_dec : EqDecision PyError.
Proof. solve_decision. Defined.


(** * The vocabulary of the properties *)

(** ** Options and configurations *)

(** The options that [case_lines] leaves out: no argument, and the
    identifier [help]. *)
Definition reserved_help (o : Option) : bool :=
  bool_decide (argcount o = 0) && bool_decide (opt_name o = inr (py "help")).

(** A configuration, or a command line of the wrapper, with one flag
    set. *)
Definition with_strip_comments (b : bool) (cfg : Config) : Config :=
  {| minimal := minimal cfg; strip_comments := b;
     expand_tabs := expand_tabs cfg; shebang := shebang cfg;
     command := command cfg; keep_command_ext := keep_command_ext cfg;
     random_eol := random_eol cfg; debug_print := debug_print cfg |}.

Definition with_keep_command_ext (b : bool) (cfg : Config) : Config :=
  {| minimal := minimal cfg; strip_comments := strip_comments cfg;
     expand_tabs := expand_tabs cfg; shebang := shebang cfg;
     command := command cfg; keep_command_ext := b;
     random_eol := random_eol cfg; debug_print := debug_print cfg |}.

Definition arg_with_strip_comments (b : bool) (arg : Args) : Args :=
  {| arg_example := arg_example arg; arg_full_example := arg_full_example arg;
     arg_minimal := arg_minimal arg; arg_strip_comments := b;
     arg_expand_tabs := arg_expand_tabs arg; arg_shebang := arg_shebang arg;
     arg_command := arg_command arg;
     arg_keep_command_ext := arg_keep_command_ext arg;
     arg_random_eol := arg_random_eol arg;
     arg_debug_print := arg_debug_print arg;
     arg_no_debug_print := arg_no_debug_print arg |}.

Definition arg_with_keep_command_ext (b : bool) (arg : Args) : Args :=
  {| arg_example := arg_example arg; arg_full_example := arg_full_example arg;
     arg_minimal := arg_minimal arg;
     arg_strip_comments := arg_strip_comments arg;
     arg_expand_tabs := arg_expand_tabs arg; arg_shebang := arg_shebang arg;
     arg_command := arg_command arg; arg_keep_command_ext := b;
     arg_random_eol := arg_random_eol arg;
     arg_debug_print := arg_debug_print arg;
     arg_no_debug_print := arg_no_debug_print arg |}.


(** ** Texts *)
Section text_vocabulary.
Local Open Scope char_scope.

(** Some character of [s] is not blank. *)
Definition has_nonspace (s : text) : Prop := Exists (λ c, isspace c = false) s.

(** The number of words of [s.split()]: the non-blank characters that
    follow a blank one or start the text. *)
Fixpoint word_starts (prev_space : bool) (s : text) : nat :=
  match s with
  | [] => 0
  | c :: t =>
      if isspace c then word_starts true t
      else (if prev_space then 1 else 0) + word_starts false t
  end.

(** The template up to the assignment of [CMD], and the rest of it. *)
Definition template_head : text := py "${__SHEBANG__}

CMD=".

Definition template_tail : text := drop (length template_head) PARSER_TEMPLATE.

(** A shebang line as [shebang_line] leaves it: empty, or one line that
    starts with [#!]. *)
Definition shebang_shape (sb : text) : Prop :=
  ("010" ∉ sb) ∧ (sb = [] ∨ (∃ x, sb = "#" :: "!" :: x)).

(** What follows the shebang line in the assembled text. *)
Definition cmd_head : text := ["010"; "010"; "C"; "M"; "D"; "="].

End text_vocabulary.

(** ** Placeholders *)




(** ** The grammar parser on particular texts *)



Definition repeated_options : list Option :=
  [ mkOption (Some (py "-n")) None 1 (Some (py "A"));
    mkOption (Some (py "-n")) None 1 (Some (py "B")) ].

(** [docopt] on a text that describes the option [-n] twice. *)
Definition repeated_doc : text := py "Usage: prog [options]

Options:
  -n X  first [default: A]
  -n X  second [default: B]
".

Definition docopt_repeated : Docopt :=
  recorded [py "Usage: prog [options]"]
           [py "Options:
  -n X  first [default: A]
  -n X  second [default: B]"]
           (py "( [options] )") repeated_options
           (inr ([], repeated_options)).

(** [docopt] on the text [usage:x (]: one usage section, whose pattern has
    a parenthesis that is not closed. *)
Definition unmatched_doc : text := py "usage:x (".

Definition docopt_unmatched : Docopt :=
  recorded [unmatched_doc] [] (py "( ( )") []
           (inl (DocoptLanguageError (py "unmatched '('"))).

(** ** What the grammar parser is asked *)
Section grammar_vocabulary.
Context `{!Docopt}.

(** The text handed to [docopt.parse_defaults], and the usage section. *)
Definition docopt_text (docstring : text) : text :=
  let doc := match parse_section (py "options:") docstring with
             | [] => add_options_header docstring
             | _ => docstring
             end in
  match parse_section (py "usage:") docstring with
  | [] => placeholder_usage ++ py "

" ++ doc
  | _ => doc
  end.

Definition usage_section (docstring : text) : option text :=
  head (parse_section (py "usage:") docstring).

Definition command_found (docstring : text) : Prop :=
  match usage_section docstring with
  | Some usage => is_Some (search_usage_cmd usage)
  | None => True
  end.

End grammar_vocabulary.

(** ** The generated script at run time *)
Section run_vocabulary.
Import Shell.
Context (arms : list (Option * text)) (EOL : text).

(** The first arm that [opt] selects sets a flag, or takes an argument. *)
Definition flag_arm (opt : text) : Prop :=
  ∃ o name, find_arm arms opt = Some (o, name) ∧ argcount o = 0.

Definition argument_arm (opt : text) : Prop :=
  ∃ o name, find_arm arms opt = Some (o, name) ∧ argcount o ≠ 0.

(** The first parameter makes the script exit with the message
    [message] and the status 2, however long the loop may run. *)
Definition exits_with (minimal : bool) (argv : list text) (message : text)
  : Prop :=
  ∀ fuel, 5 ≤ fuel →
    run minimal arms EOL fuel argv = Some (UsageError message)
    ∧ exit_code (UsageError message) = 2.

(** The message holds the word [argument] and the option as typed. *)
Definition names_argument_of (message typed : text) : Prop :=
  contains message (py "argument") = true
  ∧ contains message (quoted typed) = true.






(** The weight of a parameter, and of the parameters before the end
    marker: a bound on the turns of the loop that they still take. *)
Definition weight (a : text) : nat := 3 ^ length a.
Definition pending (args : list text) : nat :=
  sum_list (weight <$> take_until EOL args).

End run_vocabulary.

(** ** The test suite on the run-time model

    The parser of [DOC_EXAMPLE] on an argument vector, and the outcome
    that [debug_output] of [tests/test_generated.py] spells: the four
    variables and the positional parameters. *)
Definition example_run (minimal : bool) (argv : list string)
  : option Shell.Outcome :=
  Shell.run minimal (Shell.arms_of example_options) Shell.EOL_fixed 40
            (py <$> argv).

Definition blank : string := String.EmptyString.

Definition debug_output (v f n o : string) (a : list string)
  : option Shell.Outcome :=
  Some (Shell.Parsed {[ "opt_v" := py v; "opt_flag" := py f;
                        "opt_name" := py n; "opt_only_long" := py o ]}
                     (py <$> a)).

Definition usage_error (message : string) : option Shell.Outcome :=
  Some (Shell.UsageError (py message)).


(** ** More answers of the grammar parser *)

(** [docopt] on a text that is one usage line for the command [prog]. *)
Definition prog_doc : text := py "Usage: prog [options]".

Definition docopt_prog : Docopt :=
  recorded [prog_doc] [] (py "( [options] )") [] (inr ([], [])).

(** ** Well-spelled options *)

(** An option with a name, long or short, and no percent sign in its
    names. *)
Definition named (o : Option) : Prop :=
  truthy (long o) || truthy (short o) = true.

Definition percent_free (o : Option) : Prop :=
  ("%"%char ∉ or_text (short o) []) ∧ ("%"%char ∉ or_text (long o) []).

(** The width of the patterns of the case arms: two characters for the
    short name and, when an option has a long name, three for the
    separator and the length of the longest long name. *)
Definition max_long (opts : list Option) : nat :=
  max_list_with (λ o, length (or_text (long o) [])) opts.

Definition arm_width (max_len : nat) : nat :=
  if bool_decide (max_len = 0) then 2 else 5 + max_len.

(** A shebang argument that the generator takes: empty, or one line of
    at most two words. *)
Definition valid_shebang (s : text) : Prop :=
  s = [] ∨ (("010"%char ∉ s) ∧ length (split s) ≤ 2).

(** ** More on the script at run time *)
Section run_vocabulary_more.
Import Shell.
Context (minimal : bool) (arms : list (Option * text)) (EOL : text).

(** One turn of the loop keeps [opt] as a positional parameter: it goes
    to the end of the parameters, and nothing else changes. *)
Definition kept_as_positional (opt : text) (st : State) : Prop :=
  step minimal arms EOL opt st
  = inl {| args := args st ++ [opt]; vars := vars st;
           sh_long := sh_long st; sh_short := sh_short st;
           sh_val := sh_val st |}.

(** One turn of the loop ends the script on a usage error that names
    [opt] under [kind]. *)
Definition rejected_as (kind : string) (opt : text) (st : State) : Prop :=
  step minimal arms EOL opt st
  = inr (UsageError (py kind ++ py " option: " ++ quoted opt)).

End run_vocabulary_more.

(** A long option name as the splitting arm reads it: two dashes, a
    character that is not the equals sign, and no equals sign after. *)
Definition long_name (l : text) : Prop :=
  ∃ c r, l = "-"%char :: "-"%char :: c :: r ∧ ("="%char ∉ l).



(** ** Bundles of short flags *)
Section bundles.
Import Shell.
Context (arms : list (Option * text)) (EOL : text).

(** [-c] is a flag of the script, with the identifier [name]. *)
Definition short_flag (c : ascii) (name : text) : Prop :=
  isalnum c = true ∧ ["-"%char; c] ≠ EOL
  ∧ ∃ o, find_arm arms ["-"%char; c] = Some (o, name) ∧ argcount o = 0.

(** [-c1c2...cn] is a bundle of the flags [-c1], ..., [-cn], and neither
    it nor what is left of it after some flags is an option spelling or
    the end marker. *)
Inductive flag_bundle : list ascii → list text → Prop :=
  | bundle_last c name :
      short_flag c name → flag_bundle [c] [name]
  | bundle_more c cs name names :
      short_flag c name → cs ≠ [] →
      find_arm arms ("-"%char :: c :: cs) = None →
      "-"%char :: c :: cs ≠ EOL →
      flag_bundle cs names → flag_bundle (c :: cs) (name :: names).

(** The variables after the flags [names] have been set. *)
Definition set_flags (names : list text) (vars : gmap string text)
  : gmap string text :=
  foldl (λ m name, <[var_of name := py "true"]> m) vars names.

End bundles.

(** * The embedding on the example of the source *)

(** [_parse_docstring(DOC_EXAMPLE)]: no command name, the usage line
    made from the options, and the option list in the order of the
    keys. *)
Example parse_example :
  @_parse_docstring docopt_example last_inserted DOC_EXAMPLE
  = inr {| parsed_cmd := None;
           usage_msg :=
             py "Usage:  $CMD [-fhv] [-n ARG] [--only-long] [ARGS...]";
           help_msg := py "$USAGE

" ++ strip DOC_EXAMPLE;
           options := example_options |}.
Proof. vm_compute. reflexivity. Qed.

(** The case arms of the full style, and the variables with their
    defaults; the option [-h, --help] has no arm of its own. *)
Example case_lines_example :
  case_lines false 11 example_options
  = inr ([ py "-v               ) opt_v=`true`;;";
           py "-f | --flag      ) assert_noarg `$opt` `$long`; opt_flag=`true`;;";
           py "-n | --name      ) assert_arg `$1` `$val` `$opt` `$short`; opt_name=`$1`; shift;;";
           py "     --only-long ) assert_noarg `$opt` `$long`; opt_only_long=`true`;;" ],
          [ (py "v", []); (py "flag", []); (py "name", py "`Alice`");
            (py "only_long", []) ]).
Proof. vm_compute. reflexivity. Qed.

(** The vectors of [tests/test_generated.py], which runs the full
    style. *)
Example test_empty_command :
  example_run false [] = debug_output blank blank "Alice" blank [].
Proof. vm_compute. reflexivity. Qed.

Example test_all_short :
  example_run false ["-f"; "-v"; "-n"; "Bob"]
  = debug_output "true" "true" "Bob" blank [].
Proof. vm_compute. reflexivity. Qed.

Example test_short_condensed :
  example_run false ["-fvn"; "Bob"] = debug_output "true" "true" "Bob" blank [].
Proof. vm_compute. reflexivity. Qed.

Example test_all_long :
  example_run false ["--flag"; "--name"; "Bob"]
  = debug_output blank "true" "Bob" blank [].
Proof. vm_compute. reflexivity. Qed.

Example test_long_equal :
  example_run false ["--name=Bob"] = debug_output blank blank "Bob" blank [].
Proof. vm_compute. reflexivity. Qed.

Example test_force_positional :
  example_run false ["--"; "-v"; "--not-an-option"]
  = debug_output blank blank "Alice" blank ["-v"; "--not-an-option"].
Proof. vm_compute. reflexivity. Qed.

Example test_intermixed_positional :
  example_run false ["spam"; "-v"; "eggs"; "--name"; "Kevin"; "bacon"; "--";
                     "without"; "spam"; "--not-an-option"]
  = debug_output "true" blank "Kevin" blank
      ["spam"; "eggs"; "bacon"; "without"; "spam"; "--not-an-option"].
Proof. vm_compute. reflexivity. Qed.

Example test_corner_case_positional :
  Shell.run false (Shell.arms_of example_options) Shell.EOL_fixed 40
    [[]; py "-"]
  = Some (Shell.Parsed {[ "opt_v" := []; "opt_flag" := [];
                          "opt_name" := py "Alice"; "opt_only_long" := [] ]}
                       [[]; py "-"]).
Proof. vm_compute. reflexivity. Qed.

Example test_equal_empty_value :
  example_run false ["--name="]
  = debug_output blank blank blank blank [].
Proof. vm_compute. reflexivity. Qed.

Example test_double_dash_value :
  example_run false ["--name=--"] = debug_output blank blank "--" blank [].
Proof. vm_compute. reflexivity. Qed.

Example test_repeated :
  example_run false ["-vv"; "-fn"; "Bob"; "--flag"; "--name=Charlie"]
  = debug_output "true" "true" "Charlie" blank [].
Proof. vm_compute. reflexivity. Qed.

Example test_unknown_short :
  example_run false ["-a"] = usage_error "unknown short option: '-a'"
  ∧ example_run false ["-A"] = usage_error "unknown short option: '-A'"
  ∧ example_run false ["-0"] = usage_error "unknown short option: '-0'"
  ∧ example_run false ["-vfa"] = usage_error "unknown short option: '-a'".
Proof. split_and!; vm_compute; reflexivity. Qed.

Example test_unknown_long :
  example_run false ["--nam3"] = usage_error "unknown long option: '--nam3'"
  ∧ example_run false ["--non-existent"]
    = usage_error "unknown long option: '--non-existent'"
  ∧ example_run false ["--bad=whatever"]
    = usage_error "unknown long option: '--bad'".
Proof. split_and!; vm_compute; reflexivity. Qed.

Example test_invalid_short :
  example_run false ["-?"] = usage_error "invalid option: '-?'"
  ∧ example_run false ["-bad!"] = usage_error "invalid option: '-bad!'"
  ∧ example_run false ["-ba-d"] = usage_error "invalid option: '-ba-d'"
  ∧ example_run false ["-bad-"] = usage_error "invalid option: '-bad-'"
  ∧ example_run false ["-n Lancelot"]
    = usage_error "invalid option: '-n Lancelot'".
Proof. split_and!; vm_compute; reflexivity. Qed.

Example test_invalid_long :
  Forall (λ bad, example_run false [bad.1]
                 = usage_error ("invalid option: '" +:+ bad.2 +:+ "'"))
    [ ("--a", "--a");
      ("--ALL-CAPS-NOT-ALLOWED", "--ALL-CAPS-NOT-ALLOWED");
      ("---", "---");
      ("---too-many-dashes", "---too-many-dashes");
      ("--two--middle--dashes", "--two--middle--dashes");
      ("--trailing-dash-", "--trailing-dash-");
      ("--middle space", "--middle space");
      ("--@#$%!-symbols", "--@#$%!-symbols");
      ("--BAD-option=indeed", "--BAD-option");
      ("--=empty", "--=empty") ]%string.
Proof. repeat constructor; vm_compute; reflexivity. Qed.

Example test_missing_argument :
  example_run false ["--name"]
  = usage_error "missing argument for option '--name'"
  ∧ example_run false ["--name"; "--"; "Arthur"]
    = usage_error "missing argument for option '--name'"
  ∧ example_run false ["-n"] = usage_error "missing argument for option '-n'"
  ∧ example_run false ["-n"; "--"]
    = usage_error "missing argument for option '-n'"
  ∧ example_run false ["-fnv"]
    = usage_error "missing argument for option '-n'".
Proof. split_and!; vm_compute; reflexivity. Qed.

Example test_no_argument :
  example_run false ["--flag=spam"]
  = usage_error "option '--flag' doesn't accept arguments".
Proof. vm_compute. reflexivity. Qed.



(** ** Facts on the string primitives *)
Section string_facts.
Local Open Scope char_scope.

Implicit Types s t x y : text.

Lemma lstrip_blank s : Forall (λ c, isspace c = true) s → lstrip s = [].
Proof. induction 1 as [|c s Hc _ IH]; simpl; [done|]. by rewrite Hc. Qed.

Lemma lstrip_split s :
  ∃ p, s = p ++ lstrip s ∧ Forall (λ c, isspace c = true) p.
Proof.
  induction s as [|c s (p & Hp & Hb)]; [by exists []|]. simpl.
  destruct (isspace c) eqn:Hc.
  - exists (c :: p). split; [by rewrite <-app_comm_cons, <-Hp|by constructor].
  - by exists [].
Qed.

Lemma lstrip_head s :
  has_nonspace s → ∃ c r, lstrip s = c :: r ∧ isspace c = false.
Proof.
  induction 1 as [c s Hc|c s _ IH]; simpl.
  - rewrite Hc. eauto.
  - destruct (isspace c) eqn:Hc; eauto.
Qed.

Lemma lstrip_nonspace c s : isspace c = false → lstrip (c :: s) = c :: s.
Proof. simpl. by intros ->. Qed.

Lemma lstrip_app s t : has_nonspace s → lstrip (s ++ t) = lstrip s ++ t.
Proof.
  induction 1 as [c s Hc|c s _ IH]; simpl.
  - by rewrite Hc.
  - destruct (isspace c); [done|]. done.
Qed.

Lemma has_nonspace_reverse s : has_nonspace (reverse s) ↔ has_nonspace s.
Proof.
  unfold has_nonspace. rewrite !Exists_exists.
  by setoid_rewrite elem_of_reverse.
Qed.

Lemma rstrip_split s :
  ∃ q, s = rstrip s ++ q ∧ Forall (λ c, isspace c = true) q.
Proof.
  unfold rstrip. destruct (lstrip_split (reverse s)) as (p & Hp & Hb).
  exists (reverse p). split.
  - rewrite <-reverse_app, <-Hp. by rewrite reverse_involutive.
  - by apply Forall_reverse.
Qed.

Lemma rstrip_app s t : has_nonspace t → rstrip (s ++ t) = s ++ rstrip t.
Proof.
  intros Ht. unfold rstrip. rewrite reverse_app, lstrip_app.
  - by rewrite reverse_app, reverse_involutive.
  - by apply has_nonspace_reverse.
Qed.

Lemma rstrip_last s :
  has_nonspace s → ∃ r c, rstrip s = r ++ [c] ∧ isspace c = false.
Proof.
  intros Hs. unfold rstrip.
  destruct (lstrip_head (reverse s)) as (c & r & Hl & Hc).
  { by apply has_nonspace_reverse. }
  rewrite Hl, reverse_cons. eauto.
Qed.

Lemma has_nonspace_lstrip s : has_nonspace s → has_nonspace (lstrip s).
Proof.
  intros Hs. destruct (lstrip_head s Hs) as (c & r & -> & Hc).
  by apply Exists_cons_hd.
Qed.

(** A text with a non-blank character is trimmed to a text that begins
    and ends with non-blank characters. *)
Lemma strip_ends s :
  has_nonspace s →
  ∃ c body d, isspace c = false ∧ isspace d = false
              ∧ (strip s = c :: body) ∧ (∃ r, strip s = r ++ [d]).
Proof.
  intros Hs. unfold strip.
  destruct (lstrip_head s Hs) as (c & r & Hl & Hc).
  destruct (rstrip_last (lstrip s)) as (r' & d & Hr & Hd).
  { by apply has_nonspace_lstrip. }
  rewrite Hl in Hr |- *.
  assert (rstrip (c :: r) = c :: rstrip r ∨ rstrip (c :: r) = [c]) as Hcase.
  { destruct (decide (has_nonspace r)) as [Hn|Hn].
    - left. by apply (rstrip_app [c] r).
    - right. unfold rstrip. rewrite reverse_cons.
      assert (Forall (λ c, isspace c = true) (reverse r)) as Hb.
      { apply Forall_reverse, Forall_forall. intros a Ha.
        destruct (isspace a) eqn:E; [done|]. destruct Hn.
        apply Exists_exists. eauto. }
      clear -Hb Hc. induction Hb as [|a l Ha _ IH]; simpl.
      + by rewrite Hc.
      + by rewrite Ha. }
  exists c. destruct Hcase as [E|E]; rewrite E in Hr |- *.
  - exists (rstrip r), d. eauto 10.
  - exists [], d. split_and!; eauto.
Qed.

End string_facts.


(** ** Words of a text and in-line comments *)
Section word_facts.
Local Open Scope char_scope.

Implicit Types s t x y u v w : text.

Lemma split_from_length cur s :
  length (split_from cur s)
  = match cur with
    | [] => word_starts true s
    | _ => 1 + word_starts false s
    end.
Proof.
  revert cur. induction s as [|c s IH]; intros cur; simpl.
  - by destruct cur.
  - destruct (isspace c).
    + destruct cur; simpl; by rewrite IH.
    + rewrite IH. destruct cur; simpl; lia.
Qed.

Lemma split_length s : length (split s) = word_starts true s.
Proof. apply split_from_length. Qed.

Lemma word_starts_space b x c y :
  isspace c = true →
  word_starts b (x ++ c :: y) = word_starts b x + word_starts true y.
Proof.
  intros Hc. revert b. induction x as [|a x IH]; intros b; simpl.
  - by rewrite Hc.
  - destruct (isspace a); rewrite IH; lia.
Qed.

Lemma word_starts_blank_prefix p y :
  Forall (λ c, isspace c = true) p →
  word_starts true (p ++ y) = word_starts true y.
Proof. induction 1 as [|c p Hc _ IH]; simpl; [done|]. by rewrite Hc. Qed.

Lemma word_starts_blank b q :
  Forall (λ c, isspace c = true) q → word_starts b q = 0.
Proof.
  intros Hq. revert b.
  induction Hq as [|c q Hc _ IH]; intros b; simpl; [done|]. by rewrite Hc.
Qed.

Lemma word_starts_blank_suffix b x q :
  Forall (λ c, isspace c = true) q → word_starts b (x ++ q) = word_starts b x.
Proof.
  intros Hq. revert b. induction x as [|a x IH]; intros b; simpl.
  - by apply word_starts_blank.
  - destruct (isspace a); by rewrite IH.
Qed.

Lemma word_starts_nonspace y : has_nonspace y → 1 ≤ word_starts true y.
Proof.
  induction 1 as [c y Hc|c y _ IH]; simpl.
  - rewrite Hc. lia.
  - destruct (isspace c); lia.
Qed.

Lemma word_starts_strip s : word_starts true (strip s) = word_starts true s.
Proof.
  destruct (lstrip_split s) as (p & Hp & Hpb).
  destruct (rstrip_split (lstrip s)) as (q & Hq & Hqb).
  unfold strip. rewrite Hp at 2. rewrite word_starts_blank_prefix by done.
  rewrite Hq at 2. by rewrite word_starts_blank_suffix.
Qed.

Lemma strip_nonempty s : strip s ≠ [] → has_nonspace s.
Proof.
  intros Hs. destruct (decide (has_nonspace s)) as [|Hn]; [done|].
  destruct Hs. unfold strip. rewrite lstrip_blank; [done|].
  apply Forall_forall. intros a Ha. destruct (isspace a) eqn:E; [done|].
  destruct Hn. apply Exists_exists. eauto.
Qed.

Lemma elem_of_strip c s : c ∈ strip s → c ∈ s.
Proof.
  destruct (lstrip_split s) as (p & Hp & _).
  destruct (rstrip_split (lstrip s)) as (q & Hq & _).
  intros Hc. rewrite Hp, Hq. unfold strip in Hc.
  rewrite !elem_of_app. auto.
Qed.

(** *** The pattern of an in-line comment *)

Lemma take_while_drop f s :
  take_while f s ++ drop (length (take_while f s)) s = s.
Proof.
  induction s as [|c s IH]; simpl; [done|].
  destruct (f c); simpl; [by rewrite IH|done].
Qed.

Lemma take_while_spaces s :
  take_while (λ c, bool_decide (c = " ")) s
  = replicate (length (take_while (λ c, bool_decide (c = " ")) s)) " ".
Proof.
  induction s as [|c s IH]; simpl; [done|].
  case_bool_decide; simpl; [|done]. subst. by rewrite <-IH.
Qed.

Lemma inline_comment_Some s n :
  inline_comment s = Some n →
  ∃ k c s', s = replicate k " " ++ "#" :: " " :: c :: s'
            ∧ 2 ≤ k ∧ c ≠ "010".
Proof.
  unfold inline_comment.
  set (spaces := take_while _ s).
  pose proof (take_while_drop (λ c, bool_decide (c = " ")) s) as Hs.
  fold spaces in Hs.
  destruct (drop (length spaces) s) as [|a [|b s2]] eqn:Hd; try done.
  case_bool_decide as Ha; simpl; [|done].
  case_bool_decide as Hb; simpl; [|done]. subst a b.
  destruct s2 as [|c s2]; simpl; [done|].
  unfold notnl at 1. case_bool_decide as Hc; simpl; [done|].
  case_decide as Hk; [|done]. intros _.
  exists (length spaces), c, s2. split_and!; [|done|done].
  rewrite <-Hs at 1. f_equal. apply take_while_spaces.
Qed.

Lemma app_eq_prefix (a u t s' : text) (c : ascii) :
  c ∉ a → c ∉ u → u ++ c :: t = a ++ s' → ∃ u', u = a ++ u'.
Proof.
  revert u. induction a as [|b a IH]; intros u Ha Hu E; [by exists u|].
  destruct u as [|d u]; simpl in E.
  - injection E as -> _. destruct Ha. by left.
  - injection E as -> E. destruct (IH u) as [u' ->]; [| |done|by exists u'].
    + intros ?. apply Ha. by right.
    + intros ?. apply Hu. by right.
Qed.

(** A shebang of at most two words, trimmed and put after [#!], holds no
    in-line comment. *)
Lemma shebang_no_inline_comment s u v t :
  "010" ∉ s → length (split s) ≤ 2 →
  py "#!" ++ strip s = v ++ u → u ≠ [] →
  inline_comment (u ++ "010" :: t) = None.
Proof.
  intros Hnl Hwords E Hu.
  destruct (inline_comment (u ++ "010" :: t)) as [n|] eqn:Hi; [|done].
  exfalso.
  destruct (inline_comment_Some _ _ Hi) as (k & c & s' & E' & Hk & Hc).
  assert ("010" ∉ u) as Hnu.
  { intros Hin. assert ("010" ∈ py "#!" ++ strip s) as Hin'.
    { rewrite E. apply elem_of_app. by right. }
    apply elem_of_app in Hin' as [Hin'|Hin'].
    - revert Hin'. apply (bool_decide_unpack _). by vm_compute.
    - by apply Hnl, elem_of_strip. }
  destruct (app_eq_prefix (replicate k " " ++ "#" :: " " :: [c]) u t s' "010")
    as [u' ->]; [|done| |].
  { rewrite elem_of_app, elem_of_replicate. intros [[? _]|Hin]; [done|].
    rewrite !elem_of_cons, elem_of_nil in Hin.
    destruct Hin as [?|[?|[?|[]]]]; congruence. }
  { rewrite E'. by rewrite <-!app_assoc. }
  clear E' Hi Hnu Hu.
  change (py "#!") with ["#"; "!"] in E.
  destruct k as [|k]; [lia|].
  destruct v as [|a [|b v]]; simpl in E; [done..|].
  injection E as _ _ E.
  assert (strip s = (v ++ replicate k " ") ++ " " :: "#" :: " " :: c :: u')
    as E2.
  { rewrite E, <-!app_assoc. f_equal. simpl.
    clear. induction k as [|k IH]; simpl; [done|]. f_equal. exact IH. }
  clear E.
  assert (has_nonspace s) as Hs.
  { apply strip_nonempty. rewrite E2. intros Heq.
    apply (f_equal length) in Heq. rewrite !length_app in Heq.
    simpl in Heq. lia. }
  destruct (strip_ends s Hs) as (c0 & body & d & Hc0 & Hd & Hhd & r & Hlast).
  rewrite split_length, <-word_starts_strip in Hwords.
  assert (has_nonspace (c :: u')) as Hcu.
  { apply Exists_exists. exists d. split; [|done].
    assert (last (strip s) = last (c :: u')) as Hl.
    { rewrite E2.
      change (" " :: "#" :: " " :: c :: u') with ([" "; "#"; " "] ++ c :: u').
      rewrite app_assoc, last_app.
      destruct (last (c :: u')) eqn:Hl'; [done|]. by apply last_None in Hl'. }
    rewrite Hlast, last_snoc in Hl.
    symmetry in Hl. by apply last_Some_elem_of in Hl. }
  rewrite E2, word_starts_space in Hwords by done.
  assert (1 ≤ word_starts true (v ++ replicate k " ")) as H1.
  { apply word_starts_nonspace. destruct v as [|a' v].
    - rewrite Hhd in E2. destruct k; simpl in E2; by injection E2 as ->.
    - rewrite Hhd in E2. injection E2 as -> _. by apply Exists_cons_hd. }
  pose proof (word_starts_nonspace _ Hcu) as H2.
  change (word_starts true ("#" :: " " :: c :: u'))
    with (1 + word_starts true (c :: u')) in Hwords.
  lia.
Qed.

End word_facts.


(** ** The head of the assembled text *)
Section assemble_facts.
Local Open Scope char_scope.

Lemma substitute_skip m (a t : text) :
  substitute_from m (length a) (a ++ t) = substitute_from m 0 t.
Proof. induction a as [|c a IH]; simpl; [done|]. apply IH. Qed.

Lemma template_split : PARSER_TEMPLATE = template_head ++ template_tail.
Proof. vm_compute. reflexivity. Qed.

Lemma substitute_head_missing m (t : text) :
  m !! "__SHEBANG__"%string = None →
  substitute_from m 0 (template_head ++ t)
  = template_head ++ substitute_from m 0 t.
Proof.
  intros Hm. unfold template_head.
  change (py _) with
    ["$"; "{"; "_"; "_"; "S"; "H"; "E"; "B"; "A"; "N"; "G"; "_"; "_"; "}";
     "010"; "010"; "C"; "M"; "D"; "="].
  cbn -[substitute_from lookup]. 
  change (substitute_from m 0 ("$" :: ?x)) with
    (substitute_from m 0 ("$" :: x)).
  simpl. unfold key. simpl. rewrite Hm. reflexivity.
Qed.

Lemma substitute_head_found m (t sb : text) :
  m !! "__SHEBANG__"%string = Some sb →
  substitute_from m 0 (template_head ++ t)
  = sb ++ py "

CMD=" ++ substitute_from m 0 t.
Proof.
  intros Hm. unfold template_head.
  change (py "${__SHEBANG__}

CMD=") with
    ["$"; "{"; "_"; "_"; "S"; "H"; "E"; "B"; "A"; "N"; "G"; "_"; "_"; "}";
     "010"; "010"; "C"; "M"; "D"; "="].
  cbn -[substitute_from lookup].
  change (substitute_from m 0 ("$" :: ?x)) with
    (substitute_from m 0 ("$" :: x)).
  simpl. unfold key. simpl. rewrite Hm. reflexivity.
Qed.

Lemma replace_tab_head (t new : text) :
  replace (template_head ++ t) (py "	") new
  = template_head ++ replace t (py "	") new.
Proof. reflexivity. Qed.

Lemma shebang_not_early (m : gmap string text) :
  filter (λ kv, kv.1 ∈ early_snippets) m !! "__SHEBANG__"%string = None.
Proof.
  apply map_lookup_filter_None. right. intros v _ Hin. simpl in Hin.
  revert Hin. apply (bool_decide_unpack _). vm_compute. exact I.
Qed.

Lemma snippets_shebang cfg doc sb cases nd printf :
  snippets_of cfg doc sb cases nd printf !! "__SHEBANG__"%string = Some sb.
Proof.
  unfold snippets_of. rewrite !lookup_insert_ne by done.
  rewrite lookup_union_r.
  - by rewrite !lookup_insert_ne, lookup_insert_eq by done.
  - case_bool_decide; by rewrite !lookup_insert_ne, lookup_empty by done.
Qed.

(** The assembled text starts with the shebang line, an empty line and
    the assignment of [CMD]. *)
Lemma assemble_head cfg doc sb cases nd printf :
  ∃ rest, assemble cfg (snippets_of cfg doc sb cases nd printf)
          = sb ++ py "

CMD=" ++ rest.
Proof.
  unfold assemble, safe_substitute. rewrite template_split.
  rewrite (substitute_head_missing _ _ (shebang_not_early _)).
  case_decide.
  - rewrite replace_tab_head.
    rewrite (substitute_head_found _ _ _ (snippets_shebang _ _ _ _ _ _)).
    eauto.
  - rewrite (substitute_head_found _ _ _ (snippets_shebang _ _ _ _ _ _)).
    eauto.
Qed.

End assemble_facts.


(** ** The end of the generation: comments, trimming, the shebang line *)
Section finish_facts.
Local Open Scope char_scope.

Implicit Types s t x y sb rest : text.

Lemma strip_comment_lines_copy x t :
  "010" ∉ x →
  strip_comment_lines_from 0 false (x ++ t)
  = x ++ strip_comment_lines_from 0 false t.
Proof.
  induction x as [|c x IH]; intros Hx; [done|]. simpl.
  rewrite bool_decide_eq_false_2.
  - rewrite IH; [done|]. intros ?. apply Hx. by right.
  - intros ->. apply Hx. by left.
Qed.

Lemma strip_comment_lines_head sb rest :
  shebang_shape sb →
  ∃ rest', strip_comment_lines (sb ++ py "

CMD=" ++ rest)
           = sb ++ py "

CMD=" ++ rest'.
Proof.
  change (py "

CMD=") with ["010"; "010"; "C"; "M"; "D"; "="].
  intros [Hnl [->|[x ->]]].
  - unfold strip_comment_lines. simpl. eauto.
  - unfold strip_comment_lines.
    assert (∀ y, strip_comment_lines_from 0 true ("#" :: "!" :: y)
                 = "#" :: "!" :: strip_comment_lines_from 0 false y) as E.
    { intros [|c y]; reflexivity. }
    rewrite <-!app_comm_cons, E, strip_comment_lines_copy.
    + simpl. eauto.
    + intros ?. apply Hnl. by do 2 right.
Qed.

Lemma strip_inline_comments_copy a t :
  (∀ u v, a = v ++ u → u ≠ [] → inline_comment (u ++ t) = None) →
  strip_inline_comments_from 0 (a ++ t)
  = a ++ strip_inline_comments_from 0 t.
Proof.
  induction a as [|c a IH]; intros H; [done|].
  pose proof (H (c :: a) [] eq_refl) as Hc.
  rewrite <-app_comm_cons in *.
  change (strip_inline_comments_from 0 (c :: a ++ t))
    with (match inline_comment (c :: a ++ t) with
          | Some (S k) => strip_inline_comments_from k (a ++ t)
          | _ => c :: strip_inline_comments_from 0 (a ++ t)
          end).
  rewrite Hc by done. simpl. f_equal. apply IH.
  intros u v -> Hu. by apply (H u (c :: v)).
Qed.

Lemma strip_inline_comments_keeps c d t :
  c ≠ " " → c ≠ "#" →
  strip_inline_comments_from 0 (c :: d :: t)
  = c :: strip_inline_comments_from 0 (d :: t).
Proof.
  intros H1 H2. simpl. unfold inline_comment. simpl.
  rewrite (bool_decide_eq_false_2 (c = " ")) by done. simpl.
  by rewrite (bool_decide_eq_false_2 (c = "#")) by done.
Qed.

Lemma rstrip_cons_nonspace c s :
  isspace c = false → ∃ r, rstrip (c :: s) = c :: r.
Proof.
  intros Hc. destruct (decide (has_nonspace s)) as [Hn|Hn].
  - exists (rstrip s). by apply (rstrip_app [c] s).
  - exists []. unfold rstrip. rewrite reverse_cons.
    assert (Forall (λ c, isspace c = true) (reverse s)) as Hb.
    { apply Forall_reverse, Forall_forall. intros a Ha.
      destruct (isspace a) eqn:E; [done|]. destruct Hn.
      apply Exists_exists. eauto. }
    clear -Hb Hc. induction Hb as [|a l Ha _ IH]; simpl.
    + by rewrite Hc.
    + by rewrite Ha.
Qed.

Lemma startswith_shebang s :
  startswith s (py "#!") = true → ∃ x, s = "#" :: "!" :: x.
Proof.
  destruct s as [|a [|b s]]; simpl; try done.
  - by rewrite andb_false_r.
  - intros [Ha [Hb _]%andb_prop]%andb_prop.
    apply bool_decide_eq_true in Ha, Hb.
    change (unquote "#") with "#" in Ha. change (unquote "!") with "!" in Hb.
    subst. eauto.
Qed.

(** What the shebang check lets through. *)
Lemma shebang_line_inr s sb :
  shebang_line s = inr sb →
  (s = [] ∧ sb = [])
  ∨ (s ≠ [] ∧ ("010" ∉ s) ∧ length (split s) ≤ 2
     ∧ (startswith s (py "#!") = true ∧ sb = s
        ∨ startswith s (py "#!") = false ∧ sb = py "#!" ++ strip s)).
Proof.
  unfold shebang_line. destruct s as [|c s]; [intros [= <-]; by left|].
  destruct (bool_decide _ || bool_decide _) eqn:Hv; [done|].
  apply orb_false_elim in Hv as [Hnl Hw].
  apply bool_decide_eq_false in Hnl, Hw.
  intros H. right. split_and!; [done|done|lia|].
  destruct (startswith (c :: s) (py "#!")); injection H as <-; auto.
Qed.

Lemma shebang_line_shape s sb : shebang_line s = inr sb → shebang_shape sb.
Proof.
  intros [[-> ->]|(Hs & Hnl & _ & [[Hp ->]|[_ ->]])]%shebang_line_inr.
  - split; [apply not_elem_of_nil|by left].
  - split; [done|]. right. by apply startswith_shebang.
  - split; [|right; by eexists].
    intros [Hin|Hin]%elem_of_app.
    + revert Hin. apply (bool_decide_unpack _). by vm_compute.
    + by apply Hnl, elem_of_strip.
Qed.

(** With a shebang of at most two words, put after [#!], the first line
    of the output is the shebang line. *)
Lemma finish_shebang cfg s rest :
  "010" ∉ s → length (split s) ≤ 2 →
  ∃ rest', finish cfg ((py "#!" ++ strip s) ++ cmd_head ++ rest)
           = py "#!" ++ strip s ++ "010" :: rest'.
Proof.
  intros Hnl Hw.
  assert (shebang_shape (py "#!" ++ strip s)) as Hshape.
  { split; [|right; by eexists].
    intros [Hin|Hin]%elem_of_app.
    - revert Hin. apply (bool_decide_unpack _). by vm_compute.
    - by apply Hnl, elem_of_strip. }
  assert (∃ Y, has_nonspace Y ∧
            finish cfg ((py "#!" ++ strip s) ++ cmd_head ++ rest)
            = strip ((py "#!" ++ strip s) ++ "010" :: Y) ++ ["010"])
    as (Y & HY & E).
  { unfold finish. destruct (strip_comments cfg).
    - destruct (strip_comment_lines_head _ rest Hshape) as [rest' E].
      change (py "

CMD=") with cmd_head in E.
      rewrite E. unfold strip_inline_comments, cmd_head.
      eexists. split; cycle 1.
      + rewrite strip_inline_comments_copy.
        2:{ intros u v Huv Hu.
            by apply (shebang_no_inline_comment s u v). }
        simpl. reflexivity.
      + apply Exists_cons_tl, Exists_cons_hd. reflexivity.
    - eexists. split; [|reflexivity].
      apply Exists_cons_tl, Exists_cons_hd. reflexivity. }
  rewrite E. unfold strip. change (py "#!") with ["#"; "!"]. simpl app.
  change (lstrip ("#" :: "!" :: strip s ++ "010" :: Y))
    with ("#" :: "!" :: strip s ++ "010" :: Y).
  rewrite (app_comm_cons _ _ "!"), (app_comm_cons _ _ "#").
  rewrite (rstrip_app _ ("010" :: Y)) by (by apply Exists_cons_tl).
  destruct (rstrip_split ("010" :: Y)) as (q & Hq & _).
  destruct (rstrip ("010" :: Y)) as [|a r] eqn:Hr.
  { apply Exists_cons_tl with (x:="010") in HY.
    destruct (rstrip_last _ HY) as (r0 & ? & E' & _).
    rewrite Hr in E'. by destruct r0. }
  simpl in Hq. injection Hq as <- _.
  rewrite <-!app_assoc. simpl. eauto.
Qed.

(** Without a shebang the output starts with the assignment of [CMD]. *)
Lemma finish_no_shebang cfg rest :
  ∃ rest', finish cfg (cmd_head ++ rest) = py "CMD=" ++ rest'.
Proof.
  assert (∃ Z, finish cfg (cmd_head ++ rest)
               = strip (cmd_head ++ Z) ++ ["010"]) as (Z & ->).
  { unfold finish. destruct (strip_comments cfg).
    - destruct (strip_comment_lines_head [] rest) as [rest' E].
      { split; [apply not_elem_of_nil|by left]. }
      change (py "

CMD=") with cmd_head in E. rewrite !app_nil_l in E.
      rewrite E. unfold strip_inline_comments, cmd_head.
      change (["010"; "010"; "C"; "M"; "D"; "="] ++ rest')
        with ("010" :: "010" :: "C" :: "M" :: "D" :: "=" :: rest').
      eexists. rewrite !strip_inline_comments_keeps by done.
      assert (∀ y, strip_inline_comments_from 0 ("=" :: y)
                   = "=" :: strip_inline_comments_from 0 y) as ->.
      { by intros [|??]. }
      reflexivity.
    - eexists. reflexivity. }
  unfold strip, cmd_head. simpl app.
  change (lstrip ("010" :: "010" :: "C" :: "M" :: "D" :: "=" :: Z))
    with ("C" :: "M" :: "D" :: "=" :: Z).
  change ("C" :: "M" :: "D" :: "=" :: Z) with (["C"; "M"; "D"] ++ "=" :: Z).
  rewrite rstrip_app by (by apply Exists_cons_hd).
  destruct (rstrip_cons_nonspace "=" Z eq_refl) as [r ->].
  simpl. eauto.
Qed.

End finish_facts.

Section emit_facts.
Context `{!Docopt, !SetOrder}.
Local Open Scope char_scope.

Lemma emit_parser_inr cfg doc out :
  emit_parser cfg doc = inr out →
  ∃ sb rest, shebang_line (shebang cfg) = inr sb
             ∧ out = finish cfg (sb ++ cmd_head ++ rest).
Proof.
  unfold emit_parser.
  destruct (shebang_line (shebang cfg)) as [|sb]; [done|].
  destruct (case_lines _ _ _) as [|[cases nd]]; [done|].
  destruct (match debug_print cfg with Some false => _ | _ => _ end)
    as [|printf]; [done|].
  intros [= <-].
  destruct (assemble_head cfg doc sb cases nd printf) as [rest ->].
  exists sb. eexists. split; [done|]. reflexivity.
Qed.

Lemma generate_parser_inr docstring cfg out :
  generate_parser docstring cfg = inr out →
  ∃ doc, _parse_docstring docstring = inr doc ∧ emit_parser cfg doc = inr out.
Proof.
  unfold generate_parser.
  destruct (_parse_docstring docstring) as [|doc]; [done|]. eauto.
Qed.

(** The text that is trimmed at the end has a non-blank character. *)
Lemma finish_nonspace cfg sb rest :
  shebang_shape sb →
  ∃ body, has_nonspace body
          ∧ finish cfg (sb ++ cmd_head ++ rest) = strip body ++ ["010"].
Proof.
  intros Hsb. unfold finish. destruct (strip_comments cfg).
  - destruct (strip_comment_lines_head sb rest Hsb) as [rest' E].
    change (py "

CMD=") with cmd_head in E. rewrite E.
    eexists. split; [|reflexivity]. unfold cmd_head.
    destruct Hsb as [_ [->|[x ->]]].
    + unfold strip_inline_comments. simpl.
      apply Exists_cons_tl, Exists_cons_tl, Exists_cons_hd. reflexivity.
    + unfold strip_inline_comments. simpl. by apply Exists_cons_hd.
  - eexists. split; [|reflexivity].
    apply Exists_app. right.
    apply Exists_cons_tl, Exists_cons_tl, Exists_cons_hd. reflexivity.
Qed.

End emit_facts.


(** ** The order of the options *)
Section order_facts.

Implicit Types a b c : text.

Lemma code_inj (x y : ascii) : code x = code y → x = y.
Proof.
  unfold code. intros E.
  by rewrite <-(ascii_nat_embedding x), <-(ascii_nat_embedding y), E.
Qed.





Implicit Types k : text * text.








(** *** [sorted] gives a sorted permutation *)
Section sorted_facts.
Context {A K : Type} (lt : K → K → bool) (key : A → K).
Context (le_trans : Transitive le) (le_total : ∀ x y, le x y ∨ le y x).

Lemma insert_sorted_Permutation x l : insert_sorted lt key x l ≡ₚ x :: l.
Proof.
  induction l as [|y l IH]; simpl; [done|].
  destruct (lt (key y) (key x)); [|done].
  by rewrite IH, Permutation_swap.
Qed.

Lemma sorted_Permutation l : sorted lt key l ≡ₚ l.
Proof.
  induction l as [|x l IH]; simpl; [done|].
  by rewrite insert_sorted_Permutation, IH.
Qed.



End sorted_facts.




End order_facts.


(** ** Facts on the run-time model *)
Section shell_facts.
Import Shell.
Context (arms : list (Option * text)) (EOL : text).

Lemma glob_star_all (s : text) : glob [GStar] s = true.
Proof. induction s as [|c s IH]; [done|]. simpl in *. by rewrite IH. Qed.

Lemma glob_dashes_inv (p : list glob_item) (s : text) :
  glob (GLit "-" :: GLit "-" :: p) s = true →
  ∃ r, s = "-"%char :: "-"%char :: r.
Proof.
  destruct s as [|a [|b r]]; simpl; try done.
  - by rewrite andb_false_r.
  - intros [->%bool_decide_eq_true [->%bool_decide_eq_true _]%andb_prop]%andb_prop.
    eauto.
Qed.

Lemma matches_cons (p : string) (ps : list string) (opt : text) :
  matches (p :: ps) opt = glob (glob_of p) opt || matches ps opt.
Proof. reflexivity. Qed.

Lemma matches_one (p : string) (opt : text) :
  matches [p] opt = glob (glob_of p) opt.
Proof. unfold matches. simpl. apply orb_false_r. Qed.

Lemma matches_dashes_inv (p : string) (opt : text) :
  (∃ q, glob_of p = GLit "-" :: GLit "-" :: q) →
  matches [p] opt = true → ∃ r, opt = "-"%char :: "-"%char :: r.
Proof.
  intros [q Hq]. rewrite matches_one, Hq. apply glob_dashes_inv.
Qed.

Lemma dashes_not_alnum (r : text) :
  matches ["-*[!A-Za-z0-9]*"] ("-"%char :: "-"%char :: r) = true.
Proof.
  rewrite matches_one.
  change (glob_of "-*[!A-Za-z0-9]*")
    with [GLit "-"; GStar;
          GClass true [("A", "Z"); ("a", "z"); ("0", "9")]%char; GStar].
  change (glob [GLit "-"; GStar;
                GClass true [("A", "Z"); ("a", "z"); ("0", "9")]%char; GStar]
               ("-"%char :: "-"%char :: r))
    with (glob [GStar] r || glob [GStar;
            GClass true [("A", "Z"); ("a", "z"); ("0", "9")]%char; GStar] r).
  by rewrite glob_star_all.
Qed.



(** *** The parameters before the end marker *)


Lemma take_until_app (l k : list text) :
  EOL ∈ l → take_until EOL (l ++ k) = take_until EOL l.
Proof.
  induction l as [|x l IH]; intros Hin; [by apply elem_of_nil in Hin|].
  simpl. case_bool_decide as Hx; [done|].
  apply elem_of_cons in Hin as [Hin|Hin]; [done|]. by rewrite IH.
Qed.

Lemma drop_take_until (l : list text) :
  EOL ∈ l → ∃ k, drop (length (take_until EOL l)) l = EOL :: k.
Proof.
  induction l as [|x l IH]; intros Hin; [by apply elem_of_nil in Hin|].
  simpl. case_bool_decide as Hx; [subst x; by eexists|].
  apply elem_of_cons in Hin as [Hin|Hin]; [done|]. by apply IH.
Qed.

Lemma take_until_subseteq (l : list text) : take_until EOL l ⊆ l.
Proof.
  induction l as [|y l IH]; [done|]. intros x Hx. simpl in Hx.
  case_bool_decide; [by apply elem_of_nil in Hx|].
  apply elem_of_cons in Hx as [->|Hx]; [by left|]. right. by apply IH.
Qed.

End shell_facts.


(** ** The loop of the generated script ends *)
Section termination.
Import Shell.
Context (minimal : bool) (arms : list (Option * text)) (EOL : text).

Lemma weight_pos (a : text) : 0 < weight a.
Proof.
  unfold weight. induction (length a) as [|n IH]; simpl; lia.
Qed.

Lemma pow3_split (a b n : nat) : a < n → b < n → 3 ^ a + 3 ^ b < 3 ^ n.
Proof.
  intros Ha Hb. destruct n as [|n]; [lia|].
  assert (∀ k, k ≤ n → 3 ^ k ≤ 3 ^ n) as Hmono.
  { intros k Hk. apply Nat.pow_le_mono_r; lia. }
  pose proof (Hmono a ltac:(lia)). pose proof (Hmono b ltac:(lia)).
  assert (0 < 3 ^ n) by (clear; induction n; simpl; lia).
  simpl. lia.
Qed.

Lemma pending_cons_le (x : text) (l : list text) :
  pending EOL (x :: l) ≤ weight x + pending EOL l.
Proof. unfold pending. simpl. case_bool_decide; simpl; [lia|reflexivity]. Qed.

Lemma pending_marker (l : list text) : pending EOL (EOL :: l) = 0.
Proof. unfold pending. simpl. by rewrite bool_decide_eq_true_2. Qed.

Lemma pending_cons (x : text) (l : list text) :
  x ≠ EOL → pending EOL (x :: l) = weight x + pending EOL l.
Proof.
  intros Hx. unfold pending. simpl. by rewrite bool_decide_eq_false_2.
Qed.

Lemma pending_app (l k : list text) :
  EOL ∈ l → pending EOL (l ++ k) = pending EOL l.
Proof. intros Hin. unfold pending. by rewrite take_until_app. Qed.

(** What the patterns of the two splitting arms say of a parameter. *)
Lemma glob_star (p : list glob_item) (s : text) :
  glob (GStar :: p) s
  = glob p s || match s with [] => false | _ :: s' => glob (GStar :: p) s' end.
Proof. by destruct s. Qed.

Lemma glob_literal (p : list glob_item) (s : text) (c : ascii) :
  glob p s = true → GLit c ∈ p → c ∈ s.
Proof.
  revert s. induction p as [|g p IH]; intros s Hg Hc.
  { by apply elem_of_nil in Hc. }
  destruct g as [c'| | |negated ranges].
  - destruct s as [|a s]; [done|]. simpl in Hg.
    apply andb_prop in Hg as [Ha Hg]. apply bool_decide_eq_true in Ha.
    apply elem_of_cons in Hc as [[= ->]|Hc]; [subst; by left|].
    right. by apply IH.
  - destruct s as [|a s]; [done|]. simpl in Hg.
    apply elem_of_cons in Hc as [?|Hc]; [done|]. right. by apply IH.
  - apply elem_of_cons in Hc as [?|Hc]; [done|].
    induction s as [|a s IHs].
    + rewrite glob_star, orb_false_r in Hg. by apply IH.
    + rewrite glob_star in Hg. apply orb_prop in Hg as [Hg|Hg].
      * by apply IH.
      * right. by apply IHs.
  - destruct s as [|a s]; [done|]. simpl in Hg.
    apply andb_prop in Hg as [_ Hg].
    apply elem_of_cons in Hc as [?|Hc]; [done|]. right. by apply IH.
Qed.

Lemma long_split_lengths (opt : text) :
  matches ["--[!=]*=*"] opt = true →
  length (before_eq opt) < length opt ∧ length (after_eq opt) < length opt.
Proof.
  rewrite matches_one. intros Hg.
  assert ("="%char ∈ opt) as Hin.
  { apply (glob_literal _ _ _ Hg).
    set (g := glob_of _). vm_compute in g. subst g. do 4 right. left. }
  clear Hg. unfold before_eq, after_eq.
  induction opt as [|c opt IH]; [by apply elem_of_nil in Hin|].
  simpl. case_bool_decide as Hc; simpl.
  - lia.
  - apply elem_of_cons in Hin as [Hin|Hin]; [done|].
    destruct (IH Hin) as [H1 H2]. split; [lia|].
    destruct (drop_while _ opt) eqn:Hd; simpl in *; lia.
Qed.

Lemma short_split_shape (opt : text) :
  matches ["-?*"] opt = true → bad_option minimal opt = None →
  ∃ c o other, opt = "-"%char :: c :: o :: other.
Proof.
  rewrite matches_one. intros Hg Hbad.
  set (g := glob_of _) in Hg. vm_compute in g. subst g.
  destruct opt as [|a [|c [|o other]]]; simpl in Hg;
    rewrite ?andb_false_r in Hg; try done.
  - apply andb_prop in Hg as [Ha%bool_decide_eq_true _]. subst a.
    exfalso. revert Hbad. unfold bad_option.
    assert (glob (glob_of "-[A-Za-z0-9]") ["-"%char; c]
            || matches ["-*[!A-Za-z0-9]*"] ["-"%char; c] = true) as Hor.
    { rewrite matches_one.
      set (g1 := glob_of _). vm_compute in g1. subst g1.
      set (g2 := glob_of _). vm_compute in g2. subst g2.
      simpl. rewrite !orb_false_r, !andb_true_r.
      by destruct (between _ _ c || _). }
    rewrite !(matches_cons _ [_]).
    destruct minimal.
    + by rewrite Hor.
    + destruct (_ || matches ["--*--*"] _); [done|].
      destruct (matches ["--[a-z0-9]*[a-z0-9]"] _); [done|].
      rewrite <-matches_one in Hor.
      apply orb_prop in Hor as [Hor|Hor]; rewrite Hor; [|done].
      by destruct (matches ["-*[!A-Za-z0-9]*"] _).
  - apply andb_prop in Hg as [Ha%bool_decide_eq_true _]. subst a. eauto.
Qed.

(** One turn of the loop leaves the end marker among the parameters and
    less to read before it. *)
Lemma step_decreases opt st st1 :
  EOL ∈ args st →
  step minimal arms EOL opt st = inl st1 →
  EOL ∈ args st1
  ∧ pending EOL (args st1) < weight opt + pending EOL (args st).
Proof.
  intros Hin. pose proof (weight_pos opt) as Hpos. unfold step.
  destruct (find_arm arms opt) as [[o name]|] eqn:Hfind.
  - destruct (negb (bool_decide (argcount o = 0))).
    + destruct (args st) as [|a1 rest] eqn:Hargs;
        [by apply elem_of_nil in Hin|].
      destruct (if minimal then _ else _) eqn:Hcheck; [done|].
      intros [= <-]. simpl in *.
      assert (a1 ≠ EOL) as Ha1.
      { intros ->. destruct minimal.
        - unfold check in Hcheck. by rewrite bool_decide_eq_true_2 in Hcheck.
        - unfold assert_arg in Hcheck.
          by rewrite bool_decide_eq_true_2 in Hcheck. }
      apply elem_of_cons in Hin as [Hin|Hin]; [done|].
      rewrite pending_cons by done. split; [done|lia].
    + destruct (_ && _); [done|]. intros [= <-]. simpl. split; [done|lia].
  - destruct (matches ["-h"; "--help"] opt).
    { by destruct (_ && _). }
    destruct (matches ["--"] opt).
    { intros [= <-]. simpl. unfold rotate_to_eol.
      destruct (drop_take_until EOL (args st) Hin) as [k Hk]. rewrite Hk.
      split; [by left|]. simpl.
      change (EOL :: k ++ take_until EOL (args st))
        with (EOL :: (k ++ take_until EOL (args st))).
      rewrite pending_marker. lia. }
    destruct (matches ["--[!=]*=*"] opt) eqn:Hlong.
    { intros [= <-]. simpl. split; [by do 2 right|].
      destruct (long_split_lengths opt Hlong) as [Hb Ha].
      pose proof (pow3_split _ _ _ Hb Ha) as Hw.
      pose proof (pending_cons_le (before_eq opt)
                    (after_eq opt :: args st)) as H1.
      pose proof (pending_cons_le (after_eq opt) (args st)) as H2.
      unfold weight in *. lia. }
    destruct (bad_option minimal opt) eqn:Hbad; [done|].
    destruct (matches ["-?*"] opt) eqn:Hshort.
    + destruct (short_split_shape opt Hshort Hbad) as (c & o & other & ->).
      intros [= <-]. simpl. split; [by do 2 right|].
      unfold strip_suffix.
      replace (length ("-"%char :: c :: o :: other) - length (o :: other))
        with 2 by (simpl; lia).
      simpl drop. rewrite bool_decide_eq_true_2 by done. simpl take.
      pose proof (pending_cons_le ["-"%char; c]
                    (("-"%char :: o :: other) :: args st)) as H1.
      pose proof (pending_cons_le ("-"%char :: o :: other) (args st)) as H2.
      pose proof (pow3_split (length ["-"%char; c])
                    (length ("-"%char :: o :: other))
                    (length ("-"%char :: c :: o :: other))
                    ltac:(simpl; lia) ltac:(simpl; lia)) as Hw.
      unfold weight in *. lia.
    + intros [= <-]. simpl. split; [apply elem_of_app; by left|].
      rewrite pending_app by done. lia.
Qed.

Lemma loop_terminates fuel st :
  EOL ∈ args st → pending EOL (args st) < fuel →
  is_Some (loop minimal arms EOL fuel st).
Proof.
  revert st. induction fuel as [|fuel IH]; intros st Hin Hfuel; [lia|].
  simpl. destruct (args st) as [|opt rest] eqn:Hst;
    [by apply elem_of_nil in Hin|].
  case_bool_decide as Hopt; [done|].
  rewrite pending_cons in Hfuel by done.
  apply elem_of_cons in Hin as [Hin|Hin]; [done|].
  set (st' := {| args := rest; vars := vars st; sh_long := sh_long st;
                 sh_short := sh_short st; sh_val := sh_val st |}).
  destruct (step minimal arms EOL opt st') as [st1|o1] eqn:Hstep; [|done].
  destruct (step_decreases opt st' st1 Hin Hstep) as [Hin1 Hlt].
  simpl in Hlt. apply IH; [done|lia].
Qed.

(** The generated script ends on every argument vector: with fuel above
    the weight of the vector, the loop gives an outcome, in either
    style and whatever the options. *)
Theorem run_terminates argv fuel :
  sum_list (weight <$> argv) < fuel →
  is_Some (run minimal arms EOL fuel argv).
Proof.
  intros Hfuel.
  destruct (loop_terminates fuel (initial EOL argv)) as [o Ho].
  - simpl. apply elem_of_app. right. by left.
  - change (args (initial EOL argv)) with (argv ++ [EOL]).
    eapply Nat.le_lt_trans; [|exact Hfuel].
    clear. induction argv as [|x argv IH].
    + change ([] ++ [EOL]) with [EOL]. rewrite pending_marker. lia.
    + rewrite fmap_cons.
      change (sum_list (weight x :: (weight <$> argv)))
        with (weight x + sum_list (weight <$> argv)).
      change ((x :: argv) ++ [EOL]) with (x :: (argv ++ [EOL])).
      pose proof (pending_cons_le x (argv ++ [EOL])). lia.
  - unfold run. rewrite Ho. by destruct o.
Qed.

End termination.

Lemma run_terminates_witness :
  is_Some (Shell.run false (Shell.arms_of example_options) Shell.EOL_fixed
             40 [py "-fv"; py "x"]).
Proof.
  apply run_terminates. vm_compute. lia.
Defined.


(** ** The two styles at run time *)
Section styles.
Import Shell.
Context (arms : list (Option * text)) (EOL : text).



(** *** The loop ends *)




End styles.




(** ** Placeholders and the substitution map *)

Section placeholder_facts.
Local Open Scope char_scope.


End placeholder_facts.

Section map_facts.
Context (cfg : Config) (doc : Parsed) (sb : text) (cases : list text)
        (nd : list (text * text)) (printf : text).
Let m := snippets_of cfg doc sb cases nd printf.







End map_facts.




(** ** The coupled options *)

Lemma neq_by_decide {A} `{EqDecision A} (x y : A) :
  bool_decide (x = y) = false → x ≠ y.
Proof. apply bool_decide_eq_false. Qed.

(** C3, the claim as stated fails: [generate_parser] reads its flags one
    by one.  On [DOC_EXAMPLE], the minimal style keeps the comments of the
    template unless [strip_comments] is given too, and a command name
    given by hand leaves the extension stripping in place unless
    [keep_command_ext] is given too. *)
Lemma generation_flags_independent :
  ¬ (∀ (D : Docopt) (O : SetOrder) docstring cfg,
       minimal cfg = true →
       generate_parser docstring (with_strip_comments false cfg)
       = generate_parser docstring (with_strip_comments true cfg))
  ∧ ¬ (∀ (D : Docopt) (O : SetOrder) docstring cfg c,
         command cfg = Some c →
         generate_parser docstring (with_keep_command_ext false cfg)
         = generate_parser docstring (with_keep_command_ext true cfg)).
Proof.
  split.
  - intros H.
    specialize (H docopt_example last_inserted DOC_EXAMPLE
                  {| minimal := true; strip_comments := false;
                     expand_tabs := 4; shebang := py "/bin/sh -eu";
                     command := None; keep_command_ext := false;
                     random_eol := false; debug_print := None |} eq_refl).
    revert H. apply neq_by_decide. vm_compute. reflexivity.
  - intros H.
    specialize (H docopt_example last_inserted DOC_EXAMPLE
                  {| minimal := false; strip_comments := false;
                     expand_tabs := 4; shebang := py "/bin/sh -eu";
                     command := Some (py "prog"); keep_command_ext := false;
                     random_eol := false; debug_print := None |}
                  (py "prog") eq_refl).
    revert H. apply neq_by_decide. vm_compute. reflexivity.
Qed.

(** C3 (as amended).  The interactions are those of the wrapper script:
    the configuration it hands to [generate_parser] strips the comments
    whenever it is minimal and keeps the extension whenever a command name
    is given, so that what the wrapper prints does not depend on
    [--strip-comments] under [--minimal], nor on [--keep-command-ext]
    under [--command]. *)
Theorem wrapper_couples_options `{!Docopt, !SetOrder} (arg : Args) (input : text) :
  (minimal (main_config arg) = true → strip_comments (main_config arg) = true)
  ∧ (command (main_config arg) ≠ None →
     keep_command_ext (main_config arg) = true)
  ∧ (arg_minimal arg = true →
     main (arg_with_strip_comments false arg) input
     = main (arg_with_strip_comments true arg) input)
  ∧ (arg_command arg ≠ None →
     main (arg_with_keep_command_ext false arg) input
     = main (arg_with_keep_command_ext true arg) input).
Proof.
  split_and!.
  - unfold main_config; simpl. intros ->. apply orb_true_r.
  - unfold main_config; simpl. intros Hc.
    rewrite (bool_decide_eq_true_2 _ Hc). apply orb_true_r.
  - intros Hm. unfold main, main_config; simpl. rewrite Hm.
    by rewrite !orb_true_r.
  - intros Hc. unfold main, main_config; simpl.
    rewrite (bool_decide_eq_true_2 _ Hc). by rewrite !orb_true_r.
Qed.

(** ** The case arms and the reserved name [help] *)

Lemma case_line_reserved minimal max_len o :
  reserved_help o = true → case_line minimal max_len o = inr None.
Proof.
  unfold reserved_help, case_line. intros [Ha Hn]%andb_prop.
  apply bool_decide_eq_true in Ha, Hn. rewrite Hn. simpl.
  rewrite (bool_decide_eq_true_2 _ Ha). reflexivity.
Qed.

Lemma case_line_kept minimal max_len o r :
  reserved_help o = false → case_line minimal max_len o = inr r →
  ∃ case name dflt, r = Some (case, (name, dflt)) ∧ opt_name o = inr name.
Proof.
  unfold reserved_help, case_line. intros Hr.
  destruct (opt_name o) as [e|name] eqn:Hn; [discriminate|]. simpl.
  destruct (bool_decide (argcount o = 0)) eqn:Ha; simpl in *.
  - rewrite bool_decide_eq_false in Hr.
    rewrite bool_decide_eq_false_2 by congruence.
    destruct (percent _ name); intros [= <-]; eauto.
  - destruct (percent _ name); intros [= <-]; eauto.
Qed.




(** C4 (as amended).  An option without argument whose identifier is
    [help] gives no case arm and no entry of the variable list
    [name_default] (from which the defaults and the debug list are made):
    the arms and the list are those of the option list without these
    options, one arm and one entry for each option that is left, under its
    own identifier.  An option that takes an argument is left in, whatever
    its identifier. *)
Theorem help_flag_excluded minimal max_len opts cases name_default :
  case_lines minimal max_len opts = inr (cases, name_default) →
  let kept := filter (λ o, reserved_help o = false) opts in
  case_lines minimal max_len kept = inr (cases, name_default)
  ∧ Forall2 (λ o nd, opt_name o = inr nd.1) kept name_default
  ∧ length cases = length kept
  ∧ ∀ o, o ∈ opts → argcount o ≠ 0 → o ∈ kept.
Proof.
  intros H kept. split_and!.
  - revert cases name_default H. subst kept.
    induction opts as [|o opts IH]; intros cases nd H; [done|].
    simpl in H. rewrite filter_cons. case_decide as Hr.
    + simpl. destruct (case_line minimal max_len o) as [|r]; [done|].
      destruct (case_lines minimal max_len opts) as [|[cs nds]]; [done|].
      rewrite (IH cs nds eq_refl). done.
    + apply not_false_is_true in Hr.
      rewrite (case_line_reserved _ _ _ Hr) in H.
      destruct (case_lines minimal max_len opts) as [|[cs nds]]; [done|].
      injection H as <- <-. by apply IH.
  - revert cases name_default H. subst kept.
    induction opts as [|o opts IH]; intros cases nd H.
    { injection H as <- <-. constructor. }
    simpl in H. rewrite filter_cons.
    destruct (case_line minimal max_len o) as [|r] eqn:Hl; [done|].
    destruct (case_lines minimal max_len opts) as [|[cs nds]]; [done|].
    case_decide as Hr.
    + destruct (case_line_kept _ _ _ _ Hr Hl) as (c & n & d & -> & Hn).
      injection H as <- <-. constructor; [done|]. by eapply IH.
    + apply not_false_is_true in Hr.
      rewrite (case_line_reserved _ _ _ Hr) in Hl. injection Hl as <-.
      injection H as <- <-. by eapply IH.
  - revert cases name_default H. subst kept.
    induction opts as [|o opts IH]; intros cases nd H.
    { by injection H as <- <-. }
    simpl in H. rewrite filter_cons.
    destruct (case_line minimal max_len o) as [|r] eqn:Hl; [done|].
    destruct (case_lines minimal max_len opts) as [|[cs nds]]; [done|].
    case_decide as Hr.
    + destruct (case_line_kept _ _ _ _ Hr Hl) as (c & n & d & -> & Hn).
      injection H as <- <-. simpl. f_equal. by eapply IH.
    + apply not_false_is_true in Hr.
      rewrite (case_line_reserved _ _ _ Hr) in Hl. injection Hl as <-.
      injection H as <- <-. by eapply IH.
  - intros o Ho Ha. subst kept. apply list_elem_of_filter. split; [|done].
    unfold reserved_help. by rewrite bool_decide_eq_false_2.
Qed.

Lemma help_flag_excluded_witness :
  case_lines false 11 example_options
  = case_lines false 11 (filter (λ o, reserved_help o = false) example_options)
  ∧ mkOption (Some (py "-h")) (Some (py "--help")) 0 None
      ∉ filter (λ o, reserved_help o = false) example_options.
Proof.
  destruct (case_lines false 11 example_options) as [e|[cases nd]] eqn:H.
  - vm_compute in H. discriminate.
  - destruct (help_flag_excluded false 11 example_options cases nd H)
      as (-> & _). split; [reflexivity|].
    apply (bool_decide_unpack _). vm_compute. exact I.
Defined.

(** C4, the claim as stated fails: an option [--help=TOPIC], which takes an
    argument, has the identifier [help] and keeps its case arm and its
    entry of the variable list. *)
Lemma help_with_argument_kept :
  ¬ (∀ minimal max_len opts cases name_default o,
       case_lines minimal max_len opts = inr (cases, name_default) →
       o ∈ opts → opt_name o = inr (py "help") →
       py "help" ∉ name_default.*1).
Proof.
  intros H.
  apply (H false 6 [mkOption None (Some (py "--help")) 1 None]
           [py "     --help ) assert_arg `$1` `$val` `$opt` `$short`; opt_help=`$1`; shift;;"]
           [(py "help", [])] (mkOption None (Some (py "--help")) 1 None)).
  - vm_compute. reflexivity.
  - apply list_elem_of_singleton. reflexivity.
  - reflexivity.
  - apply list_elem_of_singleton. reflexivity.
Qed.


(** ** Missing arguments at run time *)
Section missing_argument.
Import Shell.
Context (arms : list (Option * text)) (EOL : text).

Context (Hf : flag_arm arms (py "-f")) (Hv : flag_arm arms (py "-v"))
        (Hn : argument_arm arms (py "-n"))
        (Hname : argument_arm arms (py "--name"))
        (Hfnv : find_arm arms (py "-fnv") = None)
        (Hnv : find_arm arms (py "-nv") = None)
        (Hfresh : head EOL ≠ Some "-"%char).

Lemma dash_not_EOL (t : text) : head t = Some "-"%char → t ≠ EOL.
Proof. intros Ht ->. by apply Hfresh. Qed.

Lemma loop_next (minimal : bool) fuel opt rest vars l s v :
  opt ≠ EOL →
  loop minimal arms EOL (S fuel)
    {| args := opt :: rest; vars := vars; sh_long := l; sh_short := s;
       sh_val := v |}
  = match step minimal arms EOL opt
            {| args := rest; vars := vars; sh_long := l; sh_short := s;
               sh_val := v |} with
    | inl st' => loop minimal arms EOL fuel st'
    | inr exit => Some exit
    end.
Proof. intros Hopt. simpl. by rewrite bool_decide_eq_false_2. Qed.

Lemma step_missing (minimal : bool) opt st o name :
  find_arm arms opt = Some (o, name) → argcount o ≠ 0 →
  (if minimal then check EOL (default [] (head (args st)))
   else assert_arg EOL (default [] (head (args st))) (sh_val st) opt
          (sh_short st)) = true →
  step minimal arms EOL opt st = inr (missing_argument minimal opt).
Proof.
  intros Hfind Harg Hcheck. unfold step. rewrite Hfind.
  rewrite bool_decide_eq_false_2 by done. simpl. by rewrite Hcheck.
Qed.

Lemma step_flag (minimal : bool) opt st o name :
  find_arm arms opt = Some (o, name) → argcount o = 0 →
  sh_long st ≠ opt →
  step minimal arms EOL opt st
  = inl {| args := args st; vars := <[var_of name := py "true"]> (vars st);
           sh_long := sh_long st; sh_short := sh_short st;
           sh_val := sh_val st |}.
Proof.
  intros Hfind Harg Hlong. unfold step. rewrite Hfind.
  rewrite bool_decide_eq_true_2 by done. simpl.
  unfold assert_noarg. rewrite (bool_decide_eq_false_2 (opt = sh_long st))
    by done.
  by rewrite !andb_false_r.
Qed.

Ltac next_turn :=
  match goal with
  | |- context [loop ?m _ _ (S ?f) {| args := ?o :: _ |}] =>
      rewrite (loop_next m f o) by (by apply dash_not_EOL)
  end.

Lemma step_fnv (minimal : bool) st :
  step minimal arms EOL (py "-fnv") st
  = inl {| args := py "-f" :: py "-nv" :: args st; vars := vars st;
           sh_long := sh_long st;
           sh_short := if minimal then sh_short st else py "-f";
           sh_val := sh_val st |}.
Proof. unfold step. rewrite Hfnv. by destruct minimal. Qed.

Lemma step_nv (minimal : bool) st :
  step minimal arms EOL (py "-nv") st
  = inl {| args := py "-n" :: py "-v" :: args st; vars := vars st;
           sh_long := sh_long st;
           sh_short := if minimal then sh_short st else py "-n";
           sh_val := sh_val st |}.
Proof. unfold step. rewrite Hnv. by destruct minimal. Qed.

Lemma missing_first (minimal : bool) opt a1 rest :
  argument_arm arms opt → head opt = Some "-"%char →
  a1 = EOL ∨ a1 = py "--" →
  exits_with arms EOL minimal (opt :: a1 :: rest)
    (if minimal then py "missing argument: " ++ quoted opt
     else py "missing argument for option " ++ quoted opt).
Proof.
  intros (o & name & Hfind & Harg) Hdash Ha1 fuel Hfuel. split; [|done].
  destruct fuel as [|fuel]; [lia|].
  unfold run, initial. rewrite <-!app_comm_cons.
  next_turn.
  rewrite (step_missing _ _ _ o name Hfind Harg).
  - unfold missing_argument. by destruct minimal.
  - simpl. unfold check, assert_arg.
    destruct Ha1 as [->| ->].
    + rewrite (bool_decide_eq_true_2 (EOL = EOL)) by done. by destruct minimal.
    + rewrite (bool_decide_eq_true_2 (py "--" = py "--")) by done.
      destruct minimal; [by rewrite andb_false_r|].
      by rewrite orb_true_r.
Qed.

Lemma missing_last (minimal : bool) opt :
  argument_arm arms opt → head opt = Some "-"%char →
  exits_with arms EOL minimal [opt]
    (if minimal then py "missing argument: " ++ quoted opt
     else py "missing argument for option " ++ quoted opt).
Proof.
  intros (o & name & Hfind & Harg) Hdash fuel Hfuel. split; [|done].
  destruct fuel as [|fuel]; [lia|].
  unfold run, initial. rewrite <-!app_comm_cons.
  next_turn.
  rewrite (step_missing _ _ _ o name Hfind Harg).
  - unfold missing_argument. by destruct minimal.
  - simpl. unfold check, assert_arg.
    rewrite (bool_decide_eq_true_2 (EOL = EOL)) by done. by destruct minimal.
Qed.

Lemma missing_in_bundle :
  exits_with arms EOL false [py "-fnv"] (py "missing argument for option '-n'").
Proof.
  destruct Hf as (o_f & name_f & Hfind_f & Hflag_f).
  destruct Hn as (o_n & name_n & Hfind_n & Harg_n).
  intros fuel Hfuel. split; [|done].
  do 4 (destruct fuel as [|fuel]; [lia|]).
  unfold run, initial. rewrite <-!app_comm_cons.
  next_turn. rewrite step_fnv. simpl args.
  next_turn. rewrite (step_flag _ _ _ o_f name_f Hfind_f Hflag_f) by done.
  simpl args. next_turn. rewrite step_nv. simpl args.
  next_turn.
  rewrite (step_missing _ _ _ o_n name_n Hfind_n Harg_n); [done|].
  simpl. unfold assert_arg.
  rewrite (bool_decide_eq_true_2 (py "-n" = py "-n")) by done.
  by rewrite orb_true_r.
Qed.

(** C5 (as amended).  Let the script select a flag arm for [-f] and [-v]
    and an argument arm for [-n] and [--name], no arm for the bundles
    [-fnv] and [-nv], and let the end marker not start with a dash.  Then
    the argument vectors [--name], [--name -- Arthur], [-n] and [-n --]
    end the script with the exit status 2 and a message that holds the
    word [argument] and the option as typed, in both styles; the vector
    [-fnv] does so in the full style, where the message names [-n]. *)
Theorem missing_argument_detected :
  (∀ minimal argv,
     argv ∈ [ [py "--name"]; [py "--name"; py "--"; py "Arthur"];
              [py "-n"]; [py "-n"; py "--"] ] →
     ∃ message, exits_with arms EOL minimal argv message
                ∧ names_argument_of message (default [] (head argv)))
  ∧ (∃ message, exits_with arms EOL false [py "-fnv"] message
                ∧ names_argument_of message (py "-n")).
Proof.
  split.
  - intros minimal argv Hargv.
    rewrite !elem_of_cons, elem_of_nil in Hargv.
    destruct Hargv as [->|[->|[->|[->|[]]]]]; eexists; (split;
      [ first [ by apply missing_last
              | apply missing_first; [done|done|by right] ]
      | by destruct minimal ]).
  - eexists. split; [apply missing_in_bundle|done].
Qed.

End missing_argument.

Lemma missing_argument_detected_witness :
  Shell.run false (Shell.arms_of example_options) Shell.EOL_fixed 5
    [py "-fnv"]
  = Some (Shell.UsageError (py "missing argument for option '-n'")).
Proof.
  assert (∃ message,
            exits_with (Shell.arms_of example_options) Shell.EOL_fixed false
              [py "-fnv"] message
            ∧ names_argument_of message (py "-n")) as (message & Hrun & _).
  { apply (missing_argument_detected (Shell.arms_of example_options)
             Shell.EOL_fixed).
    - eexists _, _. split; [vm_compute; reflexivity|reflexivity].
    - eexists _, _. split; [vm_compute; reflexivity|]. by vm_compute.
    - eexists _, _. split; [vm_compute; reflexivity|]. by vm_compute.
    - reflexivity.
    - reflexivity.
    - by vm_compute. }
  destruct (Hrun 5 (le_n 5)) as [Hrun5 _].
  rewrite Hrun5. f_equal.
  revert Hrun5. vm_compute. by intros [= <-].
Defined.

(** C5, the claim as stated fails for the minimal style: its [check]
    takes the rest of the bundle [-fnv] for the argument of [-n], and the
    script ends with the exit status 0 and [-v] as the name. *)
Lemma minimal_accepts_bundle :
  ∃ vars, Shell.run true (Shell.arms_of example_options) Shell.EOL_fixed 5
            [py "-fnv"]
          = Some (Shell.Parsed vars [])
          ∧ vars !! "opt_name" = Some (py "-v")
          ∧ Shell.exit_code (Shell.Parsed vars []) = 0.
Proof. eexists. split_and!; [vm_compute; reflexivity|by vm_compute|done]. Qed.


(** ** Determinism *)

Section determinism.
Context (D : Docopt) (O1 O2 : SetOrder).





End determinism.


(** C6, at the failing input: with the option [-n] described twice, the two
    entries have the same key, [sorted] leaves them in the order in which
    the set gives them, and the two iteration orders give two different
    texts. *)
Lemma output_depends_on_set_order :
  @generate_parser docopt_repeated last_inserted repeated_doc default_config
  ≠ @generate_parser docopt_repeated first_inserted repeated_doc
      default_config.
Proof. apply neq_by_decide. vm_compute. reflexivity. Qed.


(** ** The option model handed to the emission *)
Section option_model.
Context `{!Docopt, !SetOrder}.



End option_model.




(** ** The shape of the output *)
Section output_shape.
Context `{!Docopt, !SetOrder}.
Local Open Scope char_scope.

(** C10.  Whenever [generate_parser] returns, the text is not empty,
    starts with a character that is not blank, and ends with a line break
    that follows a character that is not blank: exactly one line break
    ends it. *)
Theorem output_trimmed docstring cfg out :
  generate_parser docstring cfg = inr out →
  out ≠ []
  ∧ (∃ c rest, out = c :: rest ∧ isspace c = false)
  ∧ (∃ body d, out = body ++ [d; "010"] ∧ isspace d = false).
Proof.
  intros (doc & _ & Hemit)%generate_parser_inr.
  destruct (emit_parser_inr _ _ _ Hemit) as (sb & rest & Hsb & ->).
  destruct (finish_nonspace cfg sb rest (shebang_line_shape _ _ Hsb))
    as (body & Hbody & ->).
  destruct (strip_ends body Hbody) as (c & b & d & Hc & Hd & Hhd & r & Hlast).
  split_and!.
  - rewrite Hhd. done.
  - rewrite Hhd. simpl. eauto.
  - rewrite Hlast. exists r, d. split; [|done].
    by rewrite <-app_assoc.
Qed.

Lemma case_lines_error minimal max_len opts e :
  case_lines minimal max_len opts = inl e → e = AttributeError ∨ e = FormatError.
Proof.
  induction opts as [|o opts IH]; [done|]. simpl.
  destruct (case_line minimal max_len o) as [e'|r] eqn:Hl.
  - intros [= <-]. unfold case_line in Hl.
    destruct (opt_name o) as [e0|name] eqn:Hn.
    { unfold opt_name in Hn. destruct (or_else _ _); [done|].
      injection Hn as <-. injection Hl as <-. by left. }
    simpl in Hl.
    repeat (match type of Hl with
            | (if ?b then _ else _) = _ => destruct b
            | match percent ?a ?b with _ => _ end = _ =>
                destruct (percent a b)
            end; try done); injection Hl as <-; by right.
  - destruct (case_lines minimal max_len opts) as [e'|[cs nds]].
    + intros [= <-]. by apply IH.
    + by destruct r as [[]|].
Qed.

Lemma emit_parser_invalid_shebang cfg doc s :
  emit_parser cfg doc = inl (InvalidShebang s)
  ↔ shebang_line (shebang cfg) = inl (InvalidShebang s).
Proof.
  unfold emit_parser.
  destruct (shebang_line (shebang cfg)) as [e|sb]; [done|].
  split; [|done].
  destruct (case_lines _ _ _) as [e|[cases nd]] eqn:Hc.
  { intros [= ->]. by destruct (case_lines_error _ _ _ _ Hc). }
  destruct (debug_print cfg) as [[]|]; try done;
    by destruct (format _ _).
Qed.

Lemma shebang_line_invalid s e :
  shebang_line s = inl e
  ↔ e = InvalidShebang s
    ∧ s ≠ [] ∧ ("010" ∈ s ∨ 2 < length (split s)).
Proof.
  unfold shebang_line. destruct s as [|c s].
  { split; [done|]. by intros (_ & ? & _). }
  destruct (bool_decide _ || bool_decide _) eqn:Hv.
  - apply orb_prop in Hv. rewrite !bool_decide_eq_true in Hv.
    split; [by intros [= <-]|]. by intros (-> & _).
  - apply orb_false_elim in Hv as [Hnl Hw].
    apply bool_decide_eq_false in Hnl, Hw.
    split; [by destruct (startswith _ _)|].
    by intros (_ & _ & [?|?]).
Qed.

(** C9 (as amended).  For a text that [_parse_docstring] accepts (it runs
    before the shebang is looked at), the generator raises the exception
    of the invalid shebang exactly when the shebang is not empty and holds
    a line break or more than two words.  When it returns, a shebang that
    is not empty and does not start with [#!] is the first line of the
    output, trimmed and with [#!] before it, and with an empty shebang the
    output starts with the assignment of [CMD]: it has no shebang line. *)
Theorem shebang_handling docstring cfg doc :
  _parse_docstring docstring = inr doc →
  ((∃ s, generate_parser docstring cfg = inl (InvalidShebang s))
   ↔ shebang cfg ≠ []
     ∧ ("010" ∈ shebang cfg ∨ 2 < length (split (shebang cfg))))
  ∧ (∀ out, generate_parser docstring cfg = inr out →
       (shebang cfg ≠ [] → startswith (shebang cfg) (py "#!") = false →
        ∃ rest, out = py "#!" ++ strip (shebang cfg) ++ "010" :: rest)
       ∧ (shebang cfg = [] → ∃ rest, out = py "CMD=" ++ rest)).
Proof.
  intros Hdoc. unfold generate_parser. rewrite Hdoc. split.
  - split.
    + intros [s Hs]. apply emit_parser_invalid_shebang in Hs.
      by apply shebang_line_invalid in Hs as (_ & ? & ?).
    + intros [Hne Hbad]. exists (shebang cfg).
      apply emit_parser_invalid_shebang, shebang_line_invalid. done.
  - intros out Hemit.
    destruct (emit_parser_inr _ _ _ Hemit) as (sb & rest & Hsb & ->).
    apply shebang_line_inr in Hsb. split.
    + intros Hne Hstart.
      destruct Hsb as [[? _]|(_ & Hnl & Hw & [[Hp _]|[_ ->]])];
        [done|congruence|].
      by apply finish_shebang.
    + intros Hempty. destruct Hsb as [[_ ->]|(? & _)]; [|done].
      apply finish_no_shebang.
Qed.

End output_shape.

Lemma output_trimmed_witness :
  ∃ out, @generate_parser docopt_example last_inserted
           DOC_EXAMPLE default_config = inr out
         ∧ out ≠ [].
Proof.
  destruct (@generate_parser docopt_example last_inserted
              DOC_EXAMPLE default_config) as [e|out] eqn:H.
  - vm_compute in H. discriminate.
  - exists out. split; [reflexivity|].
    exact (proj1 (@output_trimmed docopt_example last_inserted _ _ _ H)).
Defined.

Lemma shebang_handling_witness :
  ∃ rest, @generate_parser docopt_example last_inserted DOC_EXAMPLE
            default_config
          = inr (py "#!/bin/sh -eu
" ++ rest).
Proof.
  destruct (@_parse_docstring docopt_example last_inserted DOC_EXAMPLE)
    as [e|doc] eqn:Hdoc.
  - vm_compute in Hdoc. discriminate.
  - destruct (@shebang_handling docopt_example last_inserted
                DOC_EXAMPLE default_config doc Hdoc) as [_ Hout].
    destruct (@generate_parser docopt_example last_inserted DOC_EXAMPLE
                default_config) as [e|out] eqn:Hgen.
    + vm_compute in Hgen. discriminate.
    + destruct (Hout out eq_refl) as [[rest ->] _]; [done|reflexivity|].
      by exists rest.
Defined.

(** C9, the claim as stated fails: the text is parsed before the shebang
    is looked at.  With two usage sections the generator raises the
    grammar error, whatever the shebang. *)
Lemma shebang_checked_after_parsing :
  ¬ (∀ (D : Docopt) (O : SetOrder) docstring cfg,
       (∃ s, generate_parser docstring cfg = inl (InvalidShebang s))
       ↔ shebang cfg ≠ []
         ∧ ("010"%char ∈ shebang cfg ∨ 2 < length (split (shebang cfg)))).
Proof.
  intros H.
  destruct (H (recorded [py "Usage: a"; py "Usage: b"] [] [] []
                 (inr ([], [])))
              last_inserted
              (py "Usage: a

Usage: b
")
              {| minimal := false; strip_comments := false; expand_tabs := 4;
                 shebang := py "a b c"; command := None;
                 keep_command_ext := false; random_eol := false;
                 debug_print := None |}) as [_ Hback].
  destruct Hback as [s Hs].
  - split; [done|]. right. vm_compute. lia.
  - vm_compute in Hs. discriminate.
Qed.


(** ** Grammar errors *)

Section grammar_errors.
Context `{!Docopt, !SetOrder}.

Lemma usage_items_error sf defaults e :
  usage_items sf defaults = inl e → e = AttributeError.
Proof.
  induction defaults as [|o defaults IH]; [done|]. simpl.
  case_bool_decide; [done|].
  destruct (bool_decide (argcount o = 0)).
  - destruct (usage_items sf defaults); [|done]. intros [= <-]. by apply IH.
  - destruct (or_else (short o) (long o)); [|by intros [= <-]].
    destruct (usage_items sf defaults); [|done]. intros [= <-]. by apply IH.
Qed.

Lemma usage_from_options_error defaults e :
  usage_from_options defaults = inl e → e = AttributeError ∨ e = TypeError.
Proof.
  unfold usage_from_options.
  destruct (usage_items _ defaults) as [e'|items] eqn:Hi.
  - intros [= <-]. left. by eapply usage_items_error.
  - destruct (mapM id _); [done|]. intros [= <-]. by right.
Qed.

Lemma emit_parser_error cfg doc e :
  emit_parser cfg doc = inl e →
  e = AttributeError ∨ e = FormatError ∨ ∃ s, e = InvalidShebang s.
Proof.
  unfold emit_parser.
  destruct (shebang_line (shebang cfg)) as [e'|sb] eqn:Hs.
  { intros [= <-]. apply shebang_line_invalid in Hs as [-> _]. eauto. }
  destruct (case_lines _ _ _) as [e'|[cases nd]] eqn:Hc.
  { intros [= <-]. destruct (case_lines_error _ _ _ _ Hc); auto. }
  destruct (debug_print cfg) as [[]|]; try done;
    destruct (format _ _); try done; intros [= <-]; auto.
Qed.

(** The generator raises the grammar error exactly when the text has more
    than one usage section, or when it has at most one, the command name
    of that section (if any) is found, and the grammar parser rejects the
    usage pattern. *)
Theorem grammar_error_iff docstring cfg msg :
  generate_parser docstring cfg = inl (DocoptLanguageError msg)
  ↔ (1 < length (parse_section (py "usage:") docstring)
     ∧ msg = py "More than one `usage:` (case-insensitive).")
    ∨ (length (parse_section (py "usage:") docstring) ≤ 1
       ∧ command_found docstring
       ∧ parse_pattern
           (formal_usage (or_text (usage_section docstring) placeholder_usage))
           (parse_defaults (docopt_text docstring))
         = inl (DocoptLanguageError msg)).
Proof.
  unfold generate_parser, _parse_docstring, command_found, usage_section,
    docopt_text.
  case_decide as Hlen.
  { split; [intros [= <-]; by left|].
    intros [[_ ->]|[? _]]; [done|lia]. }
  destruct (parse_section (py "usage:") docstring) as [|usage sections];
    simpl.
  - destruct (parse_pattern _ _) as [e|[flat defaults']] eqn:Hp.
    { split; [intros [= ->]; right; split_and!; [lia|done|done]|].
      intros [[? _]|(_ & _ & [= ->])]; [lia|done]. }
    split; [|intros [[? _]|(_ & _ & ?)]; [lia|done]].
    destruct (usage_from_options defaults') as [e|usage] eqn:Hu; simpl.
    + intros [= ->].
      by destruct (usage_from_options_error _ _ Hu).
    + intros He. destruct (emit_parser_error _ _ _ He) as [?|[?|[??]]]; done.
  - destruct (search_usage_cmd usage) as [cmd|] eqn:Hcmd.
    + destruct (parse_pattern _ _) as [e|[flat defaults']] eqn:Hp.
      { split; [intros [= ->]; right; split_and!; [simpl in *; lia|done|done]|].
        intros [[? _]|(_ & _ & [= ->])]; [simpl in *; lia|done]. }
      split; [|intros [[? _]|(_ & _ & ?)]; [simpl in *; lia|done]].
      intros He. destruct (emit_parser_error _ _ _ He) as [?|[?|[??]]]; done.
    + split; [done|].
      intros [[? _]|(_ & [? ?] & _)]; [simpl in *; lia|done].
Qed.

End grammar_errors.

Lemma grammar_error_iff_witness :
  @generate_parser
    (recorded [py "Usage: prog ("] [] (py "( ( )") []
              (inl (DocoptLanguageError (py "unmatched '('"))))
    last_inserted (py "Usage: prog (") default_config
  = inl (DocoptLanguageError (py "unmatched '('")).
Proof.
  apply (@grammar_error_iff
           (recorded [py "Usage: prog ("] [] (py "( ( )") []
                     (inl (DocoptLanguageError (py "unmatched '('"))))
           last_inserted).
  right. split_and!.
  - vm_compute. lia.
  - vm_compute. by eexists.
  - reflexivity.
Defined.

(** C7, at the failing input: the usage section [usage:x (] has no blank
    after the colon, the search for the command name finds nothing, and
    the generator stops on the attribute error of [None] before the
    grammar parser, which rejects the pattern, is asked. *)
Lemma unmatched_usage_not_grammar_error :
  @generate_parser docopt_unmatched last_inserted unmatched_doc default_config
  = inl AttributeError
  ∧ @parse_pattern docopt_unmatched
      (@formal_usage docopt_unmatched unmatched_doc)
      (@parse_defaults docopt_unmatched unmatched_doc)
    = inl (DocoptLanguageError (py "unmatched '('")).
Proof. split; vm_compute; reflexivity. Qed.

(** * More on the generator *)

(** ** Identifiers *)
Section identifiers.
Local Open Scope char_scope.

Lemma startswith_nil (s : text) : startswith s [] = true.
Proof. by destruct s. Qed.

Lemma replace_from_char (c d : ascii) (s : text) :
  replace_from [c] [d] 0 s = (λ a, if bool_decide (c = a) then d else a) <$> s.
Proof.
  induction s as [|a s IH]; [done|]. simpl.
  rewrite startswith_nil, andb_true_r. case_bool_decide; simpl; by rewrite IH.
Qed.

Lemma replace_char_absent (c d : ascii) (s : text) :
  c ≠ d → c ∉ replace s [c] [d].
Proof.
  intros Hcd. unfold replace. rewrite replace_from_char.
  intros (a & Ha & _)%list_elem_of_fmap. by case_bool_decide.
Qed.

Lemma lstrip_chars_suffix (chars : list ascii) (s : text) :
  ∃ p, s = p ++ lstrip_chars chars s ∧ Forall (λ c, c ∈ chars) p.
Proof.
  induction s as [|a s (p & Hs & Hp)]; [by exists []|]. simpl.
  case_bool_decide as Ha.
  - exists (a :: p). split; [by rewrite <-app_comm_cons, <-Hs|by constructor].
  - by exists [].
Qed.

Lemma opt_name_error (o : Option) (e : PyError) :
  opt_name o = inl e ↔
  e = AttributeError ∧ truthy (long o) = false ∧ short o = None.
Proof.
  unfold opt_name, or_else.
  destruct (long o) as [[|c l]|], (short o) as [s|]; simpl;
    (split; [intros H; try discriminate H; by injection H as <-
            |intros (-> & Ht & Hs); try discriminate; done]).
Qed.

(** The identifier of an option holds no dash, is as long as the name it
    is made of without its leading dashes, and the loop over the options
    stops on the attribute error exactly for an option that has no long
    name and whose short name is [None]. *)
Theorem opt_name_identifier (o : Option) :
  (∀ name, opt_name o = inr name →
     ("-" ∉ name)
     ∧ ∃ dashes s, or_else (long o) (short o) = Some (dashes ++ s)
                   ∧ Forall (λ c, c = "-") dashes
                   ∧ length name = length s
                   ∧ head s ≠ Some "-")
  ∧ (∀ e, opt_name o = inl e ↔
          e = AttributeError ∧ truthy (long o) = false ∧ short o = None).
Proof.
  split.
  - intros name. unfold opt_name. destruct (or_else (long o) (short o)) as [s|]; [|done].
    intros [= <-]. split; [by apply replace_char_absent|].
    destruct (lstrip_chars_suffix ["-"] s) as (p & Hs & Hp).
    exists p, (lstrip_chars ["-"] s). split_and!.
    + by rewrite <-Hs.
    + eapply Forall_impl; [exact Hp|]. by intros c ->%list_elem_of_singleton.
    + change (py "-") with ["-"]. change (py "_") with ["_"].
      unfold replace. rewrite replace_from_char. by rewrite length_fmap.
    + clear. induction s as [|a s IH]; [done|]. simpl.
      case_bool_decide as Ha; [done|]. simpl. intros [= ->]. apply Ha.
      by left.
  - intros e. apply opt_name_error.
Qed.

End identifiers.

Lemma opt_name_identifier_witness :
  opt_name (mkOption None (Some (py "--only-long")) 0 None)
  = inr (py "only_long")
  ∧ "-"%char ∉ py "only_long".
Proof.
  split; [vm_compute; reflexivity|].
  apply (proj1 (opt_name_identifier
                  (mkOption None (Some (py "--only-long")) 0 None))).
  vm_compute. reflexivity.
Defined.


(** ** The shebang line *)
Section shebang_facts.
Local Open Scope char_scope.

Lemma word_starts_after_word (t : text) :
  (t = [] ∨ ∃ c t', t = c :: t' ∧ isspace c = false) →
  1 + word_starts false t ≤ Nat.max 1 (word_starts true t).
Proof.
  intros [->|(c & t' & -> & Hc)]; simpl; [lia|]. rewrite Hc. lia.
Qed.

(** The shebang line that the generator makes is a shebang it takes as
    it is: given back as the [shebang] argument, it is valid and comes
    out unchanged. *)
Theorem shebang_line_idempotent (s sb : text) :
  shebang_line s = inr sb → shebang_line sb = inr sb.
Proof.
  intros Hs. pose proof Hs as Hs'.
  apply shebang_line_inr in Hs'
    as [[-> ->]|(Hne & Hnl & Hw & [[Hp ->]|[Hp ->]])]; [done|done|].
  assert (strip s = [] ∨ ∃ c t', strip s = c :: t' ∧ isspace c = false)
    as Hshape.
  { destruct (strip s) as [|c t'] eqn:Hstrip; [by left|]. right.
    assert (has_nonspace s) as Hns by (apply strip_nonempty; congruence).
    destruct (strip_ends s Hns) as (c' & body & d & Hc' & _ & Hhd & _).
    rewrite Hstrip in Hhd. injection Hhd as -> ->. eauto. }
  pose proof (word_starts_after_word _ Hshape) as Hcount.
  rewrite word_starts_strip, <-split_length in Hcount.
  unfold shebang_line. change (py "#!" ++ strip s) with ("#" :: "!" :: strip s).
  rewrite (bool_decide_eq_false_2 ("010" ∈ _)).
  2:{ intros [?|[?|Hin%elem_of_strip]%elem_of_cons]%elem_of_cons; done. }
  rewrite (bool_decide_eq_false_2 (2 < _)).
  2:{ rewrite split_length. change (word_starts true ("#" :: "!" :: strip s))
        with (1 + word_starts false (strip s)). lia. }
  simpl. by destruct (strip s).
Qed.

End shebang_facts.

Lemma shebang_line_idempotent_witness :
  shebang_line (py " /bin/sh -eu ") = inr (py "#!/bin/sh -eu")
  ∧ shebang_line (py "#!/bin/sh -eu") = inr (py "#!/bin/sh -eu").
Proof.
  assert (shebang_line (py " /bin/sh -eu ") = inr (py "#!/bin/sh -eu")) as H
    by (vm_compute; reflexivity).
  split; [exact H|]. exact (shebang_line_idempotent _ _ H).
Defined.


(** ** The command name of the usage section *)
Section command_name.
Context `{!Docopt, !SetOrder}.
Local Open Scope char_scope.

Lemma take_while_Forall (f : ascii → bool) (s : text) :
  Forall (λ c, f c = true) (take_while f s).
Proof.
  induction s as [|c s IH]; simpl; [done|].
  destruct (f c) eqn:Hc; by constructor.
Qed.

Lemma take_while_stops (f : ascii → bool) (s : text) :
  match drop (length (take_while f s)) s with
  | c :: _ => f c = false
  | [] => True
  end.
Proof.
  induction s as [|c s IH]; simpl; [done|]. by destruct (f c) eqn:Hc.
Qed.

Lemma usage_at_Some (s : text) (n : nat) (token : text) :
  usage_at s = Some (n, token) →
  ∃ keyword blanks rest,
    s = keyword ++ blanks ++ token ++ rest
    ∧ lower <$> keyword = py "usage:"
    ∧ n = length keyword + length blanks
    ∧ blanks ≠ [] ∧ Forall (λ c, isspace c = true) blanks
    ∧ token ≠ [] ∧ Forall (λ c, isspace c = false) token
    ∧ match rest with c :: _ => isspace c = true | [] => True end.
Proof.
  unfold usage_at. case_bool_decide as Hkw; [|done].
  remember (take_while isspace (drop 6 s)) as blanks eqn:Hb.
  remember (take_while (λ c, negb (isspace c))
                       (drop (6 + length blanks) s)) as tok eqn:Ht.
  destruct blanks as [|b blanks']; [done|].
  destruct tok as [|t tok']; [done|].
  intros [= <- <-].
  assert (length (take 6 s) = 6) as Hlen.
  { apply (f_equal length) in Hkw. by rewrite length_fmap in Hkw. }
  pose proof (take_drop 6 s) as E1.
  pose proof (take_while_drop isspace (drop 6 s)) as E2.
  rewrite <-Hb, drop_drop in E2.
  pose proof (take_while_drop (λ c, negb (isspace c))
                (drop (6 + length (b :: blanks')) s)) as E3.
  rewrite <-Ht in E3.
  exists (take 6 s), (b :: blanks'),
    (drop (length (t :: tok')) (drop (6 + length (b :: blanks')) s)).
  split_and!; try done.
  - by rewrite E3, E2, E1.
  - by rewrite Hlen.
  - rewrite Hb. apply take_while_Forall.
  - rewrite Ht.
    eapply Forall_impl; [apply take_while_Forall|].
    intros c. simpl. by destruct (isspace c).
  - pose proof (take_while_stops (λ c, negb (isspace c))
                  (drop (6 + length (b :: blanks')) s)) as Hstop.
    rewrite <-Ht in Hstop.
    destruct (drop _ (drop _ s)) as [|c ?]; [done|].
    by destruct (isspace c).
Qed.

Lemma search_usage_cmd_Some (s token : text) :
  search_usage_cmd s = Some token →
  ∃ before keyword blanks rest,
    s = before ++ keyword ++ blanks ++ token ++ rest
    ∧ lower <$> keyword = py "usage:"
    ∧ blanks ≠ [] ∧ Forall (λ c, isspace c = true) blanks
    ∧ token ≠ [] ∧ Forall (λ c, isspace c = false) token
    ∧ match rest with c :: _ => isspace c = true | [] => True end.
Proof.
  induction s as [|c s IH]; [done|]. simpl.
  destruct (usage_at (c :: s)) as [[n t]|] eqn:Hu.
  - intros [= <-]. apply usage_at_Some in Hu
      as (kw & bl & rest & Hs & Hkw & _ & Hbl & ? & ? & ? & ?).
    by exists [], kw, bl, rest.
  - intros (before & kw & bl & rest & -> & ?)%IH.
    by exists (c :: before), kw, bl, rest.
Qed.

(** The command name that [_parse_docstring] returns is read in the one
    usage section of the text: a word of that section, not empty and
    with no blank, that follows the keyword [usage:] (in any case) and
    at least one blank; it is never [$CMD].  A text with no usage
    section gives no command name. *)
Theorem parsed_command_name (docstring : text) (doc : Parsed) :
  _parse_docstring docstring = inr doc →
  (parse_section (py "usage:") docstring = [] → parsed_cmd doc = None)
  ∧ ∀ cmd, parsed_cmd doc = Some cmd →
      cmd ≠ py "$CMD"
      ∧ ∃ usage before keyword blanks rest,
          parse_section (py "usage:") docstring = [usage]
          ∧ usage_msg doc = usage
          ∧ usage = before ++ keyword ++ blanks ++ cmd ++ rest
          ∧ lower <$> keyword = py "usage:"
          ∧ blanks ≠ [] ∧ Forall (λ c, isspace c = true) blanks
          ∧ cmd ≠ [] ∧ Forall (λ c, isspace c = false) cmd
          ∧ match rest with c :: _ => isspace c = true | [] => True end.
Proof.
  unfold _parse_docstring. case_decide as Hlen; [done|].
  destruct (parse_section (py "usage:") docstring) as [|usage sections].
  - simpl. destruct (parse_pattern _ _) as [|[flat defaults']]; [done|].
    destruct (usage_from_options defaults'); [done|].
    intros [= <-]. simpl. by split.
  - destruct sections; [|simpl in Hlen; lia].
    destruct (search_usage_cmd usage) as [token|] eqn:Hcmd; [|done].
    simpl. destruct (parse_pattern _ _) as [|[flat defaults']]; [done|].
    intros [= <-]. simpl. split; [done|]. intros cmd.
    case_bool_decide as Htok; [done|]. intros [= <-]. split; [done|].
    apply search_usage_cmd_Some in Hcmd
      as (before & kw & bl & rest & ? & ? & ? & ? & ? & ? & ?).
    by exists usage, before, kw, bl, rest.
Qed.

End command_name.

Lemma parsed_command_name_witness :
  ∃ doc,
    @_parse_docstring docopt_prog last_inserted prog_doc = inr doc
    ∧ parsed_cmd doc = Some (py "prog")
    ∧ py "prog" ≠ py "$CMD".
Proof.
  destruct (@_parse_docstring docopt_prog last_inserted prog_doc)
    as [e|doc] eqn:H.
  - vm_compute in H. discriminate.
  - exists doc. split; [reflexivity|].
    assert (parsed_cmd doc = Some (py "prog")) as Hc.
    { revert H. vm_compute. by intros [= <-]. }
    split; [exact Hc|].
    exact (proj1 (proj2 (@parsed_command_name docopt_prog last_inserted
                           _ _ H) _ Hc)).
Defined.


(** ** The case lines *)
Section case_line_facts.
Local Open Scope char_scope.

Lemma percent_copy (arg a t : text) (used : bool) :
  "%" ∉ a →
  percent_from arg used 0 (a ++ t) = (a ++.) <$> percent_from arg used 0 t.
Proof.
  induction a as [|c a IH]; intros Ha; simpl.
  { by destruct (percent_from arg used 0 t). }
  apply not_elem_of_cons in Ha as [Hc Ha].
  rewrite bool_decide_eq_false_2 by done. rewrite IH by done.
  by destruct (percent_from arg used 0 t).
Qed.

Lemma percent_plain (arg b : text) :
  "%" ∉ b → percent_from arg true 0 b = Some b.
Proof.
  intros Hb. rewrite <-(app_nil_r b) at 1. rewrite percent_copy by done.
  simpl. by rewrite app_nil_r.
Qed.

Lemma spec_conv_s (b : text) : spec_conv ("s" :: b) = Some (0, "s").
Proof.
  unfold spec_conv. simpl. by rewrite Nat.sub_diag.
Qed.

(** [fmt % arg] for a format with the one conversion [%s]. *)
Lemma percent_one (a b arg : text) :
  "%" ∉ a → "%" ∉ b →
  percent (a ++ py "%s" ++ b) arg = Some (a ++ arg ++ b).
Proof.
  intros Ha Hb. unfold percent. rewrite percent_copy by done.
  change (py "%s" ++ b) with ("%" :: "s" :: b).
  cbn [percent_from]. rewrite bool_decide_eq_true_2 by done.
  rewrite spec_conv_s. cbn [percent_from]. rewrite percent_plain by done.
  done.
Qed.

Lemma contains_app (x p y : text) : contains (x ++ p ++ y) p = true.
Proof.
  assert (∀ q z : text, startswith (q ++ z) q = true) as Hstart.
  { induction q as [|c q IH]; intros z; simpl; [by destruct z|].
    by rewrite bool_decide_eq_true_2, IH. }
  assert (∀ s : text, startswith s p = true → contains s p = true) as Hhere.
  { intros s Hs. destruct s; simpl in *; by rewrite Hs. }
  induction x as [|c x IH]; simpl.
  - apply Hhere, Hstart.
  - rewrite IH. apply orb_true_r.
Qed.

Lemma length_format_width (s : text) (w : nat) :
  length (format_width s w) = Nat.max (length s) w.
Proof.
  unfold format_width. rewrite length_app, length_replicate. lia.
Qed.

Lemma format_width_percent (s : text) (w : nat) :
  "%" ∉ s → "%" ∉ format_width s w.
Proof.
  intros Hs [?|[Heq _]%elem_of_replicate]%elem_of_app; [done|].
  discriminate Heq.
Qed.

Lemma max_long_ge (o : Option) (opts : list Option) :
  o ∈ opts → length (or_text (long o) []) ≤ max_long opts.
Proof.
  unfold max_long. induction 1 as [o opts|o o' opts _ IH]; simpl; lia.
Qed.

(** The case line of an option with a name and no percent sign in its
    names: the loop does not stop on it, and the line that it adds, if
    any, is a pattern, the closing parenthesis and an action that sets
    the variable of the option. *)
Lemma case_line_shape (minimal : bool) (max_len : nat) (o : Option) :
  named o → percent_free o →
  ∃ name, opt_name o = inr name
    ∧ (case_line minimal max_len o = inr None
       ∨ ∃ pattern action dflt,
           case_line minimal max_len o
           = inr (Some (pattern ++ py " ) " ++ action, (name, dflt)))
           ∧ (length (or_text (long o) []) ≤ max_len →
              (truthy (short o) = true →
               length (or_text (short o) []) = 2) →
              length pattern = arm_width max_len)
           ∧ contains action (py "opt_" ++ name ++ py "=") = true).
Proof.
  intros Hnamed [Hps Hpl]. unfold case_line.
  destruct (opt_name o) as [e|name] eqn:Hname.
  { exfalso. apply opt_name_error in Hname as (_ & Ht & Hs). unfold named in Hnamed.
    rewrite Ht, Hs in Hnamed. done. }
  exists name. split; [done|]. simpl.
  set (pattern := (or_text (short o) (py "  ")
         ++ (if truthy (short o) && truthy (long o) then py " | "
             else if bool_decide (max_len = 0) then [] else py "   "))
         ++ format_width (or_text (long o) []) max_len).
  assert ("%" ∉ pattern) as Hpat.
  { subst pattern. intros [[Hin|Hin]%elem_of_app|Hin]%elem_of_app.
    - destruct (short o) as [[|??]|]; simpl in *;
        try (revert Hin; by apply (bool_decide_unpack _)).
      by apply Hps.
    - revert Hin. destruct (_ && _); [by apply (bool_decide_unpack _)|].
      case_bool_decide; [by intros ?%elem_of_nil|].
      by apply (bool_decide_unpack _).
    - by apply format_width_percent in Hin. }
  assert (length (or_text (long o) []) ≤ max_len →
          (truthy (short o) = true → length (or_text (short o) []) = 2) →
          length pattern = arm_width max_len) as Hwidth.
  { intros Hlen Hshort. subst pattern. unfold arm_width.
    rewrite !length_app, length_format_width.
    destruct (short o) as [[|c s]|] eqn:Hs, (long o) as [[|d l]|] eqn:Hl;
      simpl in *; try specialize (Hshort eq_refl);
      case_bool_decide; simpl; try done; try lia. }
  assert (∀ pre post dflt,
            "%" ∉ pre → "%" ∉ post →
            match percent (pattern ++ py " ) " ++ (pre ++ py "opt_")
                             ++ py "%s" ++ py "=" ++ post) name with
            | Some case => inr (Some (case, (name, dflt)))
            | None => inl FormatError
            end
            = inr (Some (pattern ++ py " ) "
                           ++ (pre ++ py "opt_" ++ name ++ py "=" ++ post),
                         (name, dflt)) : option (text * (text * text)))
              :> PyResult _) as Hemit.
  { intros pre post dflt Hpre Hpost.
    rewrite !(app_assoc _ _ (py "%s" ++ _)), percent_one.
    - by rewrite <-!app_assoc.
    - intros [?|[Hin|[?|Hin]%elem_of_app]%elem_of_app]%elem_of_app;
        [done| |done|]; revert Hin; by apply (bool_decide_unpack _).
    - intros [Hin|?]%elem_of_app; [|done].
      revert Hin. by apply (bool_decide_unpack _). }
  assert (∀ pre post,
            contains (pre ++ py "opt_" ++ name ++ py "=" ++ post)
                     (py "opt_" ++ name ++ py "=") = true) as Hcontains.
  { intros pre post.
    replace (pre ++ py "opt_" ++ name ++ py "=" ++ post)
      with (pre ++ (py "opt_" ++ name ++ py "=") ++ post)
      by (by rewrite <-!app_assoc).
    apply contains_app. }
  destruct (negb (bool_decide (argcount o = 0))).
  - right. destruct minimal.
    + eexists pattern, _, _. split_and!; [|done|apply Hcontains].
      etrans; [|apply (Hemit (py "check `$1` `$opt`; ") (py "`$1`; shift;;"))].
      * subst pattern. by rewrite <-!app_assoc.
      * by apply (bool_decide_unpack _).
      * by apply (bool_decide_unpack _).
    + eexists pattern, _, _. split_and!; [|done|apply Hcontains].
      etrans; [|apply (Hemit (py "assert_arg `$1` `$val` `$opt` `$short`; ")
                             (py "`$1`; shift;;"))].
      * subst pattern. by rewrite <-!app_assoc.
      * by apply (bool_decide_unpack _).
      * by apply (bool_decide_unpack _).
  - case_bool_decide; [by left|]. right.
    eexists pattern, _, _. split_and!; [|done|apply Hcontains].
    etrans; [|apply (Hemit (if truthy (long o)
                            then SNIPPET.assert_noarg minimal else [])
                           (py "`true`;;"))].
    + subst pattern. by rewrite <-!app_assoc.
    + destruct (truthy (long o)), minimal;
        by apply (bool_decide_unpack _).
    + by apply (bool_decide_unpack _).
Qed.

End case_line_facts.

Section case_lines_facts.
Local Open Scope char_scope.

Lemma case_lines_shape (minimal : bool) (max_len : nat) (opts : list Option) :
  Forall named opts → Forall percent_free opts →
  ∃ cases name_default,
    case_lines minimal max_len opts = inr (cases, name_default)
    ∧ (Forall (λ o, length (or_text (long o) []) ≤ max_len) opts →
       Forall (λ o, truthy (short o) = true →
                    length (or_text (short o) []) = 2) opts →
       Forall2 (λ case nd,
                  ∃ pattern action,
                    case = pattern ++ py " ) " ++ action
                    ∧ length pattern = arm_width max_len
                    ∧ contains action (py "opt_" ++ nd.1 ++ py "=") = true)
               cases name_default).
Proof.
  induction opts as [|o opts IH]; intros Hnamed Hfree.
  { exists [], []. split; [done|]. constructor. }
  apply Forall_cons in Hnamed as [Hn Hnamed].
  apply Forall_cons in Hfree as [Hf Hfree].
  destruct (IH Hnamed Hfree) as (cases & nd & Hrest & Hshape).
  simpl. rewrite Hrest.
  destruct (case_line_shape minimal max_len o Hn Hf)
    as (name & _ & [->|(pattern & action & dflt & -> & Hw & Hc)]).
  - exists cases, nd. split; [done|].
    intros [_ Hl]%Forall_cons [_ Hs]%Forall_cons. by apply Hshape.
  - eexists _, _. split; [done|].
    intros [Hl0 Hl]%Forall_cons [Hs0 Hs]%Forall_cons.
    constructor; [|by apply Hshape].
    exists pattern, action. split_and!; [done|by apply Hw|done].
Qed.

(** The case arms of options with a name, no percent sign in their names
    and short names of two characters: the loop over the options gives
    one line for each variable, and the patterns of the lines all have
    the same width, so that the closing parentheses stand in one
    column; the action of a line sets the variable of its option. *)
Theorem case_arms_aligned (minimal : bool) (opts : list Option) :
  Forall named opts → Forall percent_free opts →
  Forall (λ o, truthy (short o) = true →
               length (or_text (short o) []) = 2) opts →
  ∃ cases name_default,
    case_lines minimal (max_long opts) opts = inr (cases, name_default)
    ∧ Forall2 (λ case nd,
                 ∃ pattern action,
                   case = pattern ++ py " ) " ++ action
                   ∧ length pattern = arm_width (max_long opts)
                   ∧ contains action (py "opt_" ++ nd.1 ++ py "=") = true)
              cases name_default.
Proof.
  intros Hnamed Hfree Hshort.
  destruct (case_lines_shape minimal (max_long opts) opts Hnamed Hfree)
    as (cases & nd & Hc & Hshape).
  exists cases, nd. split; [done|]. apply Hshape; [|done].
  apply Forall_forall. intros o Ho. by apply max_long_ge.
Qed.

End case_lines_facts.

Lemma case_arms_aligned_witness :
  ∃ cases name_default,
    case_lines false (max_long example_options) example_options
    = inr (cases, name_default)
    ∧ Forall2 (λ case nd,
                 ∃ pattern action,
                   case = pattern ++ py " ) " ++ action
                   ∧ length pattern = arm_width (max_long example_options)
                   ∧ contains action (py "opt_" ++ nd.1 ++ py "=") = true)
              cases name_default.
Proof.
  apply case_arms_aligned.
  - repeat (apply Forall_cons_2; [by vm_compute|]). constructor.
  - repeat (apply Forall_cons_2;
              [split; apply (bool_decide_unpack _); by vm_compute|]).
    constructor.
  - repeat (apply Forall_cons_2; [by vm_compute|]). constructor.
Defined.


(** ** When the generator returns *)
Section success.
Context `{!Docopt, !SetOrder}.
Local Open Scope char_scope.

Lemma named_or_else (o : Option) :
  named o → is_Some (or_else (short o) (long o))
            ∧ is_Some (or_else (long o) (short o)).
Proof.
  unfold named, or_else.
  destruct (long o) as [[|??]|], (short o) as [[|??]|]; simpl; try done;
    intros _; split; eauto.
Qed.

Lemma usage_items_named (sf defaults : list Option) :
  Forall named defaults →
  ∃ items, usage_items sf defaults = inr items
           ∧ Forall (λ s, is_Some s) items.
Proof.
  induction 1 as [|o defaults Ho _ (items & IH & Hitems)]; simpl.
  { by exists []. }
  case_bool_decide; [by exists items|]. rewrite IH.
  destruct (named_or_else o Ho) as [[s Hs] _]. rewrite Hs.
  destruct (bool_decide (argcount o = 0)); eexists; (split; [done|]);
    constructor; eauto.
Qed.

Lemma usage_from_options_named (defaults : list Option) :
  Forall named defaults → ∃ usage, usage_from_options defaults = inr usage.
Proof.
  intros Hnamed. unfold usage_from_options.
  destruct (usage_items_named
              (set_iter (filter (λ o, is_short_flag o = true) defaults))
              defaults Hnamed) as (items & -> & Hitems).
  simpl. match goal with |- context [mapM id ?l] =>
    destruct (proj2 (mapM_is_Some id l)) as [x ->] end; [|eauto].
  apply Forall_app. split; [|done].
  destruct (set_iter _); repeat constructor; eauto.
Qed.

Lemma shebang_line_valid (s : text) :
  valid_shebang s → ∃ sb, shebang_line s = inr sb.
Proof.
  intros [->|[Hnl Hw]]; [by exists []|]. unfold shebang_line.
  destruct s as [|c s]; [by exists []|].
  rewrite (bool_decide_eq_false_2 ("010" ∈ _)) by done.
  rewrite (bool_decide_eq_false_2 (2 < _)) by lia.
  cbn [orb]. destruct (startswith (c :: s) (py "#!")); by eexists.
Qed.

Lemma emit_parser_succeeds (cfg : Config) (doc : Parsed) :
  Forall named (options doc) → Forall percent_free (options doc) →
  valid_shebang (shebang cfg) →
  ∃ out, emit_parser cfg doc = inr out.
Proof.
  intros Hnamed Hfree Hsb. unfold emit_parser.
  destruct (shebang_line_valid _ Hsb) as [sb ->].
  destruct (case_lines_shape (minimal cfg)
              (max_list_with (λ o, length (or_text (long o) [])) (options doc))
              (options doc) Hnamed Hfree) as (cases & nd & -> & _).
  assert (∀ arg, ∃ s, format SNIPPET.debug_print arg = Some s) as Hformat.
  { intros arg. eexists. vm_compute. reflexivity. }
  destruct (Hformat (join (py " ") nd.*1)) as [s Hs].
  destruct (debug_print cfg) as [[]|]; rewrite ?Hs; eauto.
Qed.

(** The generator returns a text, with no exception, when the text has
    at most one usage section in which a command name is found, the
    grammar parser takes the usage pattern, every option has a name and
    no percent sign in its names, and the shebang argument is empty or
    one line of at most two words. *)
Theorem generate_parser_succeeds (docstring : text) (cfg : Config)
    (flat defaults' : list Option) :
  length (parse_section (py "usage:") docstring) ≤ 1 →
  command_found docstring →
  parse_pattern
    (formal_usage (or_text (usage_section docstring) placeholder_usage))
    (parse_defaults (docopt_text docstring))
  = inr (flat, defaults') →
  Forall named (flat ++ defaults') →
  Forall percent_free (flat ++ defaults') →
  valid_shebang (shebang cfg) →
  ∃ out, generate_parser docstring cfg = inr out.
Proof.
  intros Hlen Hcmd Hp Hnamed Hfree Hsb.
  assert (∀ P : Option → Prop, Forall P (flat ++ defaults') →
            Forall P (sorted key_lt sort_key (set_iter (flat ++ defaults'))))
    as Hsorted.
  { intros P HP. apply Forall_forall. intros o Ho.
    rewrite sorted_Permutation, set_iter_elem_of in Ho.
    by eapply Forall_forall in HP. }
  unfold generate_parser, _parse_docstring.
  unfold command_found, usage_section, docopt_text in *.
  case_decide; [lia|].
  destruct (parse_section (py "usage:") docstring) as [|usage sections];
    simpl in *.
  - rewrite Hp.
    destruct (usage_from_options_named defaults') as [u ->].
    { by apply Forall_app in Hnamed as [_ ?]. }
    simpl. apply emit_parser_succeeds; simpl; auto.
  - destruct Hcmd as [cmd ->]. rewrite Hp. simpl.
    apply emit_parser_succeeds; simpl; auto.
Qed.

End success.

Lemma generate_parser_succeeds_witness :
  ∃ out, @generate_parser docopt_example last_inserted DOC_EXAMPLE
           default_config = inr out.
Proof.
  apply (@generate_parser_succeeds docopt_example last_inserted DOC_EXAMPLE
           default_config [] example_defaults).
  - simpl. lia.
  - exact I.
  - reflexivity.
  - repeat (apply Forall_cons_2; [by vm_compute|]). constructor.
  - repeat (apply Forall_cons_2;
              [split; apply (bool_decide_unpack _); by vm_compute|]).
    constructor.
  - right. split; [apply (bool_decide_unpack _); by vm_compute|].
    vm_compute. lia.
Defined.


(** ** The usage message and the text for the grammar parser *)
Section usage_message.
Local Open Scope char_scope.

Lemma take_while_app_stop (f : ascii → bool) (a rest : text) :
  Forall (λ c, f c = true) a →
  match rest with c :: _ => f c = false | [] => True end →
  take_while f (a ++ rest) = a.
Proof.
  intros Ha Hrest. induction Ha as [|c a Hc _ IH]; simpl.
  - destruct rest as [|c rest]; [done|]. simpl. by rewrite Hrest.
  - by rewrite Hc, IH.
Qed.

Lemma usage_at_app (keyword blanks token rest : text) :
  lower <$> keyword = py "usage:" →
  blanks ≠ [] → Forall (λ c, isspace c = true) blanks →
  token ≠ [] → Forall (λ c, isspace c = false) token →
  match rest with c :: _ => isspace c = true | [] => True end →
  usage_at (keyword ++ blanks ++ token ++ rest)
  = Some (length keyword + length blanks, token).
Proof.
  intros Hkw Hb Hbl Ht Htok Hrest.
  assert (length keyword = 6) as Hlen.
  { apply (f_equal length) in Hkw. by rewrite length_fmap in Hkw. }
  unfold usage_at.
  rewrite <-Hlen, take_app_length, drop_app_length.
  rewrite bool_decide_eq_true_2 by done.
  rewrite (take_while_app_stop isspace blanks (token ++ rest)); [|done|].
  2:{ destruct token as [|t token]; [done|]. simpl.
      by apply Forall_cons in Htok as [? _]. }
  rewrite <-drop_drop, drop_app_length, drop_app_length.
  rewrite (take_while_app_stop (λ c, negb (isspace c)) token rest).
  - by destruct blanks, token.
  - eapply Forall_impl; [exact Htok|]. by intros c ->.
  - destruct rest as [|c ?]; [done|]. by rewrite Hrest.
Qed.

(** The usage message of the script names the command through [$CMD]:
    when a command name is resolved, the first word after the keyword
    [usage:] at the very start of the message is replaced by [$CMD] and
    nothing else changes; a message that does not start with the
    keyword, blanks and a word stays as it is, and the replacement done
    twice is the replacement done once. *)
Theorem usage_names_command (s : text) :
  (∀ n token, usage_at s = Some (n, token) →
     ∃ keyword blanks rest,
       s = keyword ++ blanks ++ token ++ rest
       ∧ sub_usage_cmd s = keyword ++ blanks ++ py "$CMD" ++ rest
       ∧ usage_at (sub_usage_cmd s) = Some (n, py "$CMD"))
  ∧ (usage_at s = None → sub_usage_cmd s = s)
  ∧ sub_usage_cmd (sub_usage_cmd s) = sub_usage_cmd s.
Proof.
  assert (∀ n token, usage_at s = Some (n, token) →
     ∃ keyword blanks rest,
       s = keyword ++ blanks ++ token ++ rest
       ∧ sub_usage_cmd s = keyword ++ blanks ++ py "$CMD" ++ rest
       ∧ usage_at (sub_usage_cmd s) = Some (n, py "$CMD")) as Hsome.
  { intros n token Hu. pose proof Hu as Hu'.
    apply usage_at_Some in Hu'
      as (kw & bl & rest & Hs & Hkw & -> & Hb & Hbl & Ht & Htok & Hrest).
    exists kw, bl, rest. split; [done|].
    assert (sub_usage_cmd s = kw ++ bl ++ py "$CMD" ++ rest) as Hsub.
    { unfold sub_usage_cmd. rewrite Hu, Hs.
      rewrite (app_assoc kw bl), <-length_app, take_app_length.
      rewrite <-drop_drop, drop_app_length, drop_app_length.
      by rewrite <-app_assoc. }
    split; [done|]. rewrite Hsub. apply usage_at_app; try done.
    repeat constructor. }
  split_and!; [done| |].
  - intros Hu. unfold sub_usage_cmd. by rewrite Hu.
  - destruct (usage_at s) as [[n token]|] eqn:Hu.
    + destruct (Hsome n token eq_refl) as (kw & bl & rest & Hs & Hsub & Hu').
      unfold sub_usage_cmd at 1. rewrite Hu'. rewrite Hsub.
      apply usage_at_Some in Hu
        as (kw' & bl' & rest' & Hs' & Hkw' & Hn & _).
      rewrite Hsub in Hu'.
      apply usage_at_Some in Hu'
        as (kw2 & bl2 & rest2 & Hs2 & Hkw2 & Hn2 & _).
      rewrite Hs2 at 1 2. rewrite Hn2.
      rewrite (app_assoc kw2 bl2), <-length_app, take_app_length.
      rewrite <-drop_drop, drop_app_length, drop_app_length.
      by rewrite <-app_assoc.
    + unfold sub_usage_cmd. by rewrite Hu, Hu.
Qed.

End usage_message.

Section text_for_docopt.
Context `{!Docopt}.
Local Open Scope char_scope.



End text_for_docopt.


(** ** The help text *)
Section help_text.
Context `{!Docopt, !SetOrder}.
Local Open Scope char_scope.

Lemma strip_usage_prefix (x : text) :
  has_nonspace x → strip (py "$USAGE

" ++ x) ≠ py "$USAGE".
Proof.
  intros Hx Heq. apply (f_equal length) in Heq. revert Heq.
  unfold strip.
  change (py "$USAGE

" ++ x) with ("$" :: (py "USAGE

" ++ x)).
  rewrite lstrip_nonspace by done.
  change ("$" :: (py "USAGE

" ++ x)) with (py "$USAGE

" ++ x).
  rewrite rstrip_app by done. rewrite length_app. simpl. lia.
Qed.

Lemma help_blank_iff (docstring : text) :
  strip (py "$USAGE

" ++ strip docstring) = py "$USAGE" ↔ strip docstring = [].
Proof.
  split.
  - intros Heq. destruct (strip docstring) as [|c x] eqn:Hs; [done|].
    exfalso. revert Heq. rewrite <-Hs. apply strip_usage_prefix.
    assert (has_nonspace docstring) as Hns
      by (apply strip_nonempty; congruence).
    destruct (strip_ends docstring Hns) as (c' & body & d & Hc & _ & Hhd & _).
    rewrite Hhd. by left.
  - intros ->. by vm_compute.
Qed.

(** The help text of a text with no usage section is the placeholder
    [$USAGE], a blank line and the trimmed text; the script gets a
    variable [HELP_MSG] for it, which [-h] prints, unless the text is
    blank: then [-h] prints the usage message and no [HELP_MSG] is
    written. *)
Theorem help_text_of_plain_text (docstring : text) (doc : Parsed)
    (cfg : Config) (sb : text) (cases : list text)
    (nd : list (text * text)) (printf : text) :
  _parse_docstring docstring = inr doc →
  parse_section (py "usage:") docstring = [] →
  let m := snippets_of cfg doc sb cases nd printf in
  help_msg doc = py "$USAGE

" ++ strip docstring
  ∧ (strip docstring = [] →
     m !! "__HELP_VAR__"%string = Some (py "$USAGE")
     ∧ m !! "__HELP__"%string = Some []
     ∧ m !! "__HELP_MSG__"%string = None)
  ∧ (strip docstring ≠ [] →
     m !! "__HELP_VAR__"%string = Some (py "$HELP_MSG")
     ∧ m !! "__HELP__"%string = Some SNIPPET.help
     ∧ m !! "__HELP_MSG__"%string = Some (help_msg doc)).
Proof.
  intros Hdoc Husage m.
  assert (help_msg doc = py "$USAGE

" ++ strip docstring) as Hhelp.
  { revert Hdoc. unfold _parse_docstring. rewrite Husage.
    case_decide; [simpl in *; lia|]. simpl.
    destruct (parse_pattern _ _) as [|[flat defaults']]; [done|].
    destruct (usage_from_options defaults'); [done|]. by intros [= <-]. }
  split; [done|]. subst m. unfold snippets_of. rewrite Hhelp.
  assert (∀ (k : string) (m1 m2 : gmap string text),
            m2 !! k = None → (m1 ∪ m2) !! k = m1 !! k) as Hleft.
  { intros k m1 m2 Hk. rewrite lookup_union, Hk. by destruct (m1 !! k). }
  split; intros Hblank.
  - rewrite bool_decide_eq_true_2 by (by apply help_blank_iff).
    split_and!; rewrite !lookup_insert_ne by done; rewrite Hleft;
      by rewrite ?lookup_insert_ne, ?lookup_insert_eq, ?lookup_empty by done.
  - rewrite bool_decide_eq_false_2 by (by rewrite help_blank_iff).
    split_and!; rewrite !lookup_insert_ne by done; rewrite Hleft;
      by rewrite ?lookup_insert_ne, ?lookup_insert_eq, ?lookup_empty by done.
Qed.

End help_text.

Lemma help_text_of_plain_text_witness :
  ∃ doc,
    @_parse_docstring docopt_example last_inserted DOC_EXAMPLE = inr doc
    ∧ help_msg doc = py "$USAGE

" ++ strip DOC_EXAMPLE.
Proof.
  destruct (@_parse_docstring docopt_example last_inserted DOC_EXAMPLE)
    as [e|doc] eqn:H.
  - vm_compute in H. discriminate.
  - exists doc. split; [reflexivity|].
    exact (proj1 (@help_text_of_plain_text docopt_example last_inserted
                    DOC_EXAMPLE doc default_config [] [] [] []
                    H eq_refl)).
Defined.


(** * More on the generated script *)

(** ** Which parameters are positional, and which are rejected *)
Section parameters.
Import Shell.
Context (arms : list (Option * text)) (EOL : text).

Lemma glob_head (c : ascii) (p : list glob_item) (s : text) :
  glob (GLit c :: p) s = true → head s = Some c.
Proof.
  destruct s as [|a s]; simpl; [done|].
  by intros [->%bool_decide_eq_true _]%andb_prop.
Qed.

Lemma glob_literals (w s : text) :
  glob (GLit <$> w) s = bool_decide (s = w).
Proof.
  revert s. induction w as [|c w IH]; intros s; simpl.
  { by destruct s. }
  destruct s as [|a s]; [done|]. rewrite IH.
  destruct (decide (c = a)) as [->|Hc].
  - rewrite (bool_decide_eq_true_2 (a = a)) by done. simpl.
    apply bool_decide_ext. split; [by intros ->|by intros [= ->]].
  - rewrite (bool_decide_eq_false_2 (c = a)) by done. simpl. symmetry.
    apply bool_decide_eq_false_2. by intros [= -> _].
Qed.

Lemma matches_no_dash (ps : list string) (opt : text) :
  Forall (λ p, ∃ q, glob_of p = GLit "-"%char :: q) ps →
  head opt ≠ Some "-"%char → matches ps opt = false.
Proof.
  intros Hps Hopt. unfold matches. apply not_true_is_false.
  intros (p & Hp%list_elem_of_In & Hg)%existsb_exists.
  eapply Forall_forall in Hps as [q Hq]; [|done].
  rewrite Hq in Hg. by apply glob_head in Hg.
Qed.

Ltac dash_patterns :=
  repeat (apply Forall_cons_2; [eexists; vm_compute; reflexivity|]);
  constructor.

Lemma bad_option_no_dash (minimal : bool) (opt : text) :
  head opt ≠ Some "-"%char → bad_option minimal opt = None.
Proof.
  intros Hopt. unfold bad_option.
  rewrite !matches_no_dash by (done || dash_patterns).
  by destruct minimal.
Qed.

Lemma in_class_alnum (c : ascii) :
  in_class [("A", "Z"); ("a", "z"); ("0", "9")]%char c = isalnum c.
Proof.
  unfold in_class, isalnum, islower, isupper, isdigit. simpl.
  by destruct (between "A"%char "Z"%char c), (between "a"%char "z"%char c), (between "0"%char "9"%char c).
Qed.

(** A parameter that no case arm of an option takes is kept as a
    positional parameter exactly when it is a dash alone or does not
    start with a dash; this holds in both styles. *)
Theorem positional_iff (minimal : bool) (opt : text) (st : State) :
  find_arm arms opt = None →
  kept_as_positional minimal arms EOL opt st
  ↔ opt = py "-" ∨ head opt ≠ Some "-"%char.
Proof.
  intros Hfind. unfold kept_as_positional, step. rewrite Hfind. split.
  - intros Hstep.
    destruct opt as [|a [|c r]]; [by right|..].
    { destruct (decide (a = "-"%char)) as [->|]; [by left|right]. by intros [=]. }
    destruct (decide (a = "-"%char)) as [->|]; [exfalso|right; by intros [=]].
    destruct (matches ["-h"; "--help"] _); [by destruct (_ && _)|].
    destruct (matches ["--"] _).
    { injection Hstep as Hargs. apply (f_equal length) in Hargs.
      unfold rotate_to_eol in Hargs.
      rewrite !length_app, length_drop in Hargs. simpl in Hargs.
      pose proof (take_until_subseteq EOL (args st)) as Hsub.
      assert (length (take_until EOL (args st)) ≤ length (args st));
        [|lia].
      clear. induction (args st) as [|x l IH]; simpl; [done|].
      case_bool_decide; simpl; lia. }
    destruct (matches ["--[!=]*=*"] _).
    { injection Hstep as Hargs. apply (f_equal length) in Hargs.
      rewrite length_app in Hargs. simpl in Hargs. lia. }
    destruct (bad_option minimal _); [done|].
    assert (matches ["-?*"] ("-"%char :: c :: r) = true) as Hshort.
    { rewrite matches_one.
      set (g := glob_of _). vm_compute in g. subst g. simpl.
      apply glob_star_all. }
    rewrite Hshort in Hstep. injection Hstep as Hargs. apply (f_equal length) in Hargs.
    rewrite length_app in Hargs. simpl in Hargs. lia.
  - intros [->|Hopt].
    + change (matches ["-h"; "--help"] (py "-")) with false.
      change (matches ["--"] (py "-")) with false.
      change (matches ["--[!=]*=*"] (py "-")) with false.
      change (matches ["-?*"] (py "-")) with false.
      assert (bad_option minimal (py "-") = None) as ->; [|done].
      by destruct minimal.
    + rewrite !matches_no_dash by (done || dash_patterns).
      by rewrite bad_option_no_dash.
Qed.

(** A parameter of a dash and one character that is no option, not
    [-h] and not [--]: the full style takes it for an unknown short
    option when the character is a letter or a digit and for an invalid
    option otherwise; the minimal style calls both invalid. *)
Theorem short_parameter_rejected (minimal : bool) (c : ascii) (st : State) :
  find_arm arms ["-"%char; c] = None → c ≠ "h"%char → c ≠ "-"%char →
  rejected_as minimal arms EOL
    (if minimal then "invalid"
     else if isalnum c then "unknown short" else "invalid")
    ["-"%char; c] st.
Proof.
  intros Hfind Hh Hd. unfold rejected_as, step. rewrite Hfind.
  assert (matches ["-h"; "--help"] ["-"%char; c] = false) as ->.
  { unfold matches. simpl.
    rewrite !(bool_decide_eq_false_2 (_ = c)) by done.
    by rewrite ?andb_false_r. }
  assert (matches ["--"] ["-"%char; c] = false) as ->.
  { unfold matches. simpl.
    rewrite !(bool_decide_eq_false_2 (_ = c)) by done.
    by rewrite ?andb_false_r. }
  assert (matches ["--[!=]*=*"] ["-"%char; c] = false) as ->.
  { rewrite matches_one. set (g := glob_of _). vm_compute in g. subst g.
    simpl. rewrite !(bool_decide_eq_false_2 (_ = c)) by done.
    by rewrite ?andb_false_r. }
  assert (∀ p q, glob_of p = GLit "-"%char :: GLit "-"%char :: q →
            matches [p] ["-"%char; c] = false) as Hdd.
  { intros p q Hp. rewrite matches_one, Hp. simpl.
    rewrite !(bool_decide_eq_false_2 (_ = c)) by done.
    by rewrite ?andb_false_r. }
  assert (matches ["-*[!A-Za-z0-9]*"] ["-"%char; c] = negb (isalnum c)) as Hinv.
  { rewrite matches_one. set (g := glob_of _). vm_compute in g. subst g.
    rewrite <-in_class_alnum. simpl.
    rewrite !orb_false_r, !andb_true_r.
    by destruct (between _ _ c || _). }
  assert (matches ["-[A-Za-z0-9]"] ["-"%char; c] = isalnum c) as Hunk.
  { rewrite matches_one. set (g := glob_of _). vm_compute in g. subst g.
    rewrite <-in_class_alnum. simpl.
    rewrite !andb_true_r. by destruct (between _ _ c || _). }
  unfold bad_option. rewrite !(matches_cons _ [_]), <-!matches_one.
  rewrite Hinv, Hunk.
  destruct minimal.
  - by destruct (isalnum c).
  - rewrite (Hdd "--*[!-a-z0-9]*" _ ltac:(vm_compute; reflexivity)).
    rewrite (Hdd "--*--*" _ ltac:(vm_compute; reflexivity)).
    rewrite (Hdd "--[a-z0-9]*[a-z0-9]" _ ltac:(vm_compute; reflexivity)).
    by destruct (isalnum c).
Qed.

(** A parameter that starts with two dashes and has more characters,
    that is no option, not [--help] and not of the form [--name=value]:
    both styles end the script on a usage error that names it, as an
    invalid or as an unknown long option. *)
Theorem long_parameter_rejected (minimal : bool) (c : ascii) (r : text)
    (st : State) :
  let opt := "-"%char :: "-"%char :: c :: r in
  find_arm arms opt = None → opt ≠ py "--help" →
  matches ["--[!=]*=*"] opt = false →
  rejected_as minimal arms EOL "invalid" opt st
  ∨ (minimal = false ∧ rejected_as minimal arms EOL "unknown long" opt st).
Proof.
  intros opt Hfind Hhelp Hlong. unfold rejected_as, step.
  rewrite Hfind, Hlong.
  assert (matches ["-h"; "--help"] opt = false) as ->.
  { apply not_true_is_false. rewrite (matches_cons "-h" ["--help"]).
    rewrite matches_one.
    change (glob_of "-h") with (GLit <$> py "-h").
    change (glob_of "--help") with (GLit <$> py "--help").
    rewrite !glob_literals.
    rewrite (bool_decide_eq_false_2 (opt = py "-h")) by done.
    by rewrite (bool_decide_eq_false_2 (opt = py "--help")). }
  assert (matches ["--"] opt = false) as ->.
  { rewrite matches_one. change (glob_of "--") with (GLit <$> py "--").
    rewrite glob_literals. by apply bool_decide_eq_false_2. }
  pose proof (dashes_not_alnum (c :: r)) as Hinv. fold opt in Hinv.
  unfold bad_option. rewrite !(matches_cons _ [_]), <-!matches_one.
  rewrite Hinv. destruct minimal.
  - left. by rewrite orb_true_r.
  - destruct (_ || _); [by left|].
    destruct (matches ["--[a-z0-9]*[a-z0-9]"] opt); [right|left]; done.
Qed.

End parameters.

Lemma positional_iff_witness :
  kept_as_positional false (Shell.arms_of example_options) Shell.EOL_fixed
    (py "spam") (Shell.initial Shell.EOL_fixed []).
Proof.
  apply positional_iff; [by vm_compute|]. right. by vm_compute.
Defined.

Lemma short_parameter_rejected_witness :
  rejected_as false (Shell.arms_of example_options) Shell.EOL_fixed
    "unknown short" (py "-a") (Shell.initial Shell.EOL_fixed []).
Proof.
  apply (short_parameter_rejected (Shell.arms_of example_options)
           Shell.EOL_fixed false "a"%char); by vm_compute.
Defined.

Lemma long_parameter_rejected_witness :
  rejected_as false (Shell.arms_of example_options) Shell.EOL_fixed
    "unknown long" (py "--nam3") (Shell.initial Shell.EOL_fixed []).
Proof.
  destruct (long_parameter_rejected (Shell.arms_of example_options)
              Shell.EOL_fixed false "n"%char (py "am3")
              (Shell.initial Shell.EOL_fixed [])) as [H|[_ H]];
    [by vm_compute..| |exact H].
  exfalso. revert H. unfold rejected_as. by vm_compute.
Defined.


(** ** Long options written with an equals sign *)
Section long_options.
Import Shell.
Context (arms : list (Option * text)) (EOL : text).

Lemma between_same (a c : ascii) : between a a c = bool_decide (c = a).
Proof.
  unfold between. case_bool_decide as Hc.
  - subst c. by rewrite Nat.leb_refl.
  - apply not_true_is_false.
    intros [H1%Nat.leb_le H2%Nat.leb_le]%andb_prop.
    apply Hc, code_inj. lia.
Qed.

Lemma glob_star_skip (p : list glob_item) (x y : text) :
  glob p y = true → glob (GStar :: p) (x ++ y) = true.
Proof.
  intros Hy. induction x as [|c x IH].
  - rewrite glob_star. apply orb_true_iff. left. exact Hy.
  - change ((c :: x) ++ y) with (c :: (x ++ y)).
    rewrite glob_star. apply orb_true_iff. right. exact IH.
Qed.

Lemma before_eq_app (l v : text) :
  "="%char ∉ l → before_eq (l ++ "="%char :: v) = l.
Proof.
  unfold before_eq. induction l as [|c l IH]; intros Hl; simpl; [done|].
  apply not_elem_of_cons in Hl as [Hc Hl].
  rewrite bool_decide_eq_false_2 by done. simpl. by rewrite IH.
Qed.

Lemma after_eq_app (l v : text) :
  "="%char ∉ l → after_eq (l ++ "="%char :: v) = v.
Proof.
  unfold after_eq.
  assert ("="%char ∉ l →
          drop_while (λ c, negb (bool_decide (c = "="%char)))
                     (l ++ "="%char :: v) = "="%char :: v) as Hdrop.
  { induction l as [|c l IH]; intros Hl; simpl; [done|].
    apply not_elem_of_cons in Hl as [Hc Hl].
    rewrite bool_decide_eq_false_2 by done. simpl. by apply IH. }
  intros Hl. by rewrite Hdrop.
Qed.

(** The turn of the loop on [--name=value]. *)
Lemma long_split_step (minimal : bool) (l v : text) (st : State) :
  long_name l → find_arm arms (l ++ "="%char :: v) = None →
  step minimal arms EOL (l ++ "="%char :: v) st
  = inl {| args := l :: v :: args st; vars := vars st;
           sh_long := if minimal then sh_long st else l;
           sh_short := sh_short st;
           sh_val := if minimal then sh_val st else v |}.
Proof.
  intros (c & r & -> & Heq) Hfind. unfold step. rewrite Hfind.
  assert (∀ w : text, "="%char ∉ w →
            ("-"%char :: "-"%char :: c :: r) ++ "="%char :: v ≠ w) as Hne.
  { intros w Hw <-. apply Hw, elem_of_app. right. by left. }
  assert (matches ["-h"; "--help"]
            (("-"%char :: "-"%char :: c :: r) ++ "="%char :: v) = false)
    as ->.
  { rewrite (matches_cons "-h" ["--help"]), matches_one.
    change (glob_of "-h") with (GLit <$> py "-h").
    change (glob_of "--help") with (GLit <$> py "--help").
    rewrite !glob_literals.
    rewrite !bool_decide_eq_false_2; [done|apply Hne..];
      apply (bool_decide_unpack _); by vm_compute. }
  assert (matches ["--"]
            (("-"%char :: "-"%char :: c :: r) ++ "="%char :: v) = false)
    as ->.
  { rewrite matches_one. change (glob_of "--") with (GLit <$> py "--").
    rewrite glob_literals. apply bool_decide_eq_false_2, Hne.
    apply (bool_decide_unpack _). by vm_compute. }
  assert (matches ["--[!=]*=*"]
            (("-"%char :: "-"%char :: c :: r) ++ "="%char :: v) = true)
    as ->.
  { rewrite matches_one.
    set (g := glob_of _). vm_compute in g. subst g.
    change ((("-"%char :: "-"%char :: c :: r) ++ "="%char :: v))
      with ("-"%char :: "-"%char :: c :: (r ++ "="%char :: v)).
    change (glob _ _)
      with (bool_decide ("-"%char = "-"%char)
            && (bool_decide ("-"%char = "-"%char)
                && (xorb true (between "="%char "="%char c || false)
                    && glob [GStar; GLit "="%char; GStar]
                            (r ++ "="%char :: v)))).
    rewrite between_same, (bool_decide_eq_false_2 (c = "="%char)).
    2:{ intros ->. apply Heq. by do 2 right; left. }
    rewrite glob_star_skip; [done|].
    change (glob [GLit "="%char; GStar] ("="%char :: v))
      with (bool_decide ("="%char = "="%char) && glob [GStar] v).
    by rewrite glob_star_all. }
  by rewrite before_eq_app, after_eq_app.
Qed.

Lemma long_name_strip_last (l : text) (s : text) :
  long_name l → bool_decide (strip_last l = py "-") && bool_decide (l = s)
                = false.
Proof.
  intros (c & r & -> & _). rewrite bool_decide_eq_false_2; [done|].
  intros Heq%(f_equal length). revert Heq. unfold strip_last.
  rewrite length_take. simpl. lia.
Qed.

(** [--name=value] for an option that takes an argument: the variable
    of the option takes the text after the first equals sign as it is,
    be it empty, a dash or two, or a text with more equals signs, and the
    loop goes on with the next parameter.  The minimal style alone does
    not take [--] for the value. *)
Theorem long_equal_binds (minimal : bool) (l v : text) (o : Option)
    (name : text) (fuel : nat) (st : State) :
  long_name l → find_arm arms (l ++ "="%char :: v) = None →
  find_arm arms l = Some (o, name) → argcount o ≠ 0 →
  l ++ "="%char :: v ≠ EOL → l ≠ EOL → v ≠ EOL →
  (minimal = true → v ≠ py "--") →
  loop minimal arms EOL (S (S fuel))
    {| args := (l ++ "="%char :: v) :: args st; vars := vars st;
       sh_long := sh_long st; sh_short := sh_short st;
       sh_val := sh_val st |}
  = loop minimal arms EOL fuel
      {| args := args st; vars := <[var_of name := v]> (vars st);
         sh_long := if minimal then sh_long st else l;
         sh_short := sh_short st;
         sh_val := if minimal then sh_val st else v |}.
Proof.
  intros Hl Hfind Harm Harg Hne1 Hne2 Hne3 Hdd.
  cbn [loop args]. rewrite bool_decide_eq_false_2 by done.
  cbn [vars sh_long sh_short sh_val].
  rewrite (long_split_step minimal l v) by done.
  cbn [args]. rewrite bool_decide_eq_false_2 by done.
  cbn [vars sh_long sh_short sh_val].
  unfold step. rewrite Harm. rewrite (bool_decide_eq_false_2 _ Harg).
  cbn [negb args head default tail vars sh_long sh_short sh_val].
  unfold id. destruct minimal.
  - unfold check. rewrite !bool_decide_eq_false_2 by auto. done.
  - unfold assert_arg. rewrite (bool_decide_eq_false_2 (v = EOL)) by done.
    rewrite long_name_strip_last by done.
    by destruct (bool_decide (v = py "--")).
Qed.

(** [--name=value] for an option that takes no argument and has a long
    name: the full style ends the script on the usage error that the
    option accepts no argument, under the name as typed. *)
Theorem flag_with_value_rejected (l v : text) (o : Option) (name : text)
    (fuel : nat) (st : State) :
  long_name l → find_arm arms (l ++ "="%char :: v) = None →
  find_arm arms l = Some (o, name) → argcount o = 0 →
  truthy (long o) = true →
  l ++ "="%char :: v ≠ EOL → l ≠ EOL →
  loop false arms EOL (S (S fuel))
    {| args := (l ++ "="%char :: v) :: args st; vars := vars st;
       sh_long := sh_long st; sh_short := sh_short st;
       sh_val := sh_val st |}
  = Some (UsageError (py "option '" ++ l
                        ++ py "' doesn't accept arguments")).
Proof.
  intros Hl Hfind Harm Harg Hlong Hne1 Hne2.
  cbn [loop args]. rewrite bool_decide_eq_false_2 by done.
  cbn [vars sh_long sh_short sh_val].
  rewrite (long_split_step false l v) by done.
  cbn [args]. rewrite bool_decide_eq_false_2 by done.
  cbn [vars sh_long sh_short sh_val].
  unfold step. rewrite Harm. rewrite (bool_decide_eq_true_2 _ Harg).
  cbn [negb sh_long]. rewrite Hlong. unfold assert_noarg.
  rewrite bool_decide_eq_true_2 by done. cbn [andb].
  unfold no_argument_accepted, quoted. by rewrite <-!app_assoc.
Qed.

End long_options.

Lemma long_equal_binds_witness :
  Shell.loop false (Shell.arms_of example_options) Shell.EOL_fixed 3
    (Shell.initial Shell.EOL_fixed [py "--name=--"])
  = Some (Shell.Parsed {[ "opt_name" := py "--" ]} []).
Proof.
  etrans.
  { apply (long_equal_binds (Shell.arms_of example_options)
             Shell.EOL_fixed false (py "--name") (py "--")
             (mkOption (Some (py "-n")) (Some (py "--name")) 1
                       (Some (py "Alice")))
             (py "name") 1
             {| Shell.args := [Shell.EOL_fixed]; Shell.vars := ∅;
                Shell.sh_long := []; Shell.sh_short := [];
                Shell.sh_val := [] |}); try by vm_compute.
    eexists _, _. split; [reflexivity|].
    apply (bool_decide_unpack _). by vm_compute. }
  by vm_compute.
Defined.

Lemma flag_with_value_rejected_witness :
  Shell.loop false (Shell.arms_of example_options) Shell.EOL_fixed 2
    (Shell.initial Shell.EOL_fixed [py "--flag=spam"])
  = Some (Shell.UsageError (py "option '--flag' doesn't accept arguments")).
Proof.
  apply (flag_with_value_rejected (Shell.arms_of example_options)
           Shell.EOL_fixed (py "--flag") (py "spam")
           (mkOption (Some (py "-f")) (Some (py "--flag")) 0 None)
           (py "flag") 0
           {| Shell.args := [Shell.EOL_fixed]; Shell.vars := ∅;
              Shell.sh_long := []; Shell.sh_short := [];
              Shell.sh_val := [] |}); try by vm_compute.
  eexists _, _. split; [reflexivity|].
  apply (bool_decide_unpack _). by vm_compute.
Defined.


(** ** The end of the options, and the defaults *)
Section after_the_loop.
Import Shell.
Context (arms : list (Option * text)) (EOL : text).

Lemma take_until_before (post rest : list text) :
  EOL ∉ post → take_until EOL (post ++ EOL :: rest) = post.
Proof.
  induction post as [|x post IH]; intros Hpost; simpl.
  { by rewrite bool_decide_eq_true_2. }
  apply not_elem_of_cons in Hpost as [Hx Hpost].
  rewrite bool_decide_eq_false_2 by done. by rewrite IH.
Qed.

(** When the loop comes to [--], it ends: the variables stay as they
    are, and the positional parameters are those kept so far followed
    by all the parameters after [--], in their order and as they are,
    options or not. *)
Theorem double_dash_ends_options (minimal : bool) (fuel : nat)
    (post acc : list text) (st : State) :
  find_arm arms (py "--") = None → py "--" ≠ EOL → EOL ∉ post →
  args st = py "--" :: post ++ EOL :: acc →
  loop minimal arms EOL (S (S fuel)) st
  = Some (Parsed (vars st) (acc ++ post)).
Proof.
  intros Hfind Hne Hpost Hargs. cbn [loop]. rewrite Hargs.
  rewrite bool_decide_eq_false_2 by done.
  unfold step. rewrite Hfind.
  change (matches ["-h"; "--help"] (py "--")) with false.
  change (matches ["--"] (py "--")) with true.
  cbn [args vars sh_long sh_short sh_val]. unfold rotate_to_eol.
  rewrite take_until_before by done.
  rewrite drop_app_length. cbn [app].
  by rewrite bool_decide_eq_true_2.
Qed.







End after_the_loop.

Lemma double_dash_ends_options_witness :
  Shell.loop false (Shell.arms_of example_options) Shell.EOL_fixed 2
    (Shell.initial Shell.EOL_fixed [py "--"; py "-v"; py "--not-an-option"])
  = Some (Shell.Parsed ∅ [py "-v"; py "--not-an-option"]).
Proof.
  apply (double_dash_ends_options (Shell.arms_of example_options)
           Shell.EOL_fixed false 0 [py "-v"; py "--not-an-option"] []).
  - by vm_compute.
  - by vm_compute.
  - apply (bool_decide_unpack _). by vm_compute.
  - reflexivity.
Defined.



(** ** Bundles of short flags *)
Section flag_bundles.
Import Shell.
Context (arms : list (Option * text)) (EOL : text).

Lemma glob_no_outsider (ranges : list (ascii * ascii)) (s : text) :
  Forall (λ c, in_class ranges c = true) s →
  glob [GStar; GClass true ranges; GStar] s = false.
Proof.
  induction 1 as [|c s Hc _ IH]; [done|].
  rewrite glob_star. cbn [glob]. rewrite Hc. exact IH.
Qed.

Lemma isalnum_not_dash (c : ascii) : isalnum c = true → c ≠ "-"%char.
Proof. by intros Hc ->. Qed.

Lemma no_double_dash (p : string) (q : list glob_item) (c : ascii) (s : text) :
  glob_of p = GLit "-"%char :: GLit "-"%char :: q →
  c ≠ "-"%char → matches [p] ("-"%char :: c :: s) = false.
Proof.
  intros Hp Hc. apply not_true_is_false. intros Hm.
  apply matches_dashes_inv in Hm as [r [= ->]]; [done|by exists q].
Qed.

Ltac double_dash := eapply no_double_dash; [vm_compute; reflexivity|done].

Lemma bad_option_bundle (minimal : bool) (c o : ascii) (other : text) :
  Forall (λ a, isalnum a = true) (c :: o :: other) →
  bad_option minimal ("-"%char :: c :: o :: other) = None.
Proof.
  intros Hall. pose proof Hall as [Hc%isalnum_not_dash _]%Forall_cons.
  assert (matches ["-*[!A-Za-z0-9]*"] ("-"%char :: c :: o :: other) = false)
    as Hinv.
  { rewrite matches_one. set (g := glob_of _). vm_compute in g. subst g.
    change (glob (GLit "-"%char :: ?p) ("-"%char :: ?s))
      with (bool_decide ("-"%char = "-"%char) && glob p s).
    rewrite glob_no_outsider; [done|].
    eapply Forall_impl; [exact Hall|]. intros a. by rewrite in_class_alnum. }
  assert (matches ["-[A-Za-z0-9]"] ("-"%char :: c :: o :: other) = false)
    as Hunk.
  { rewrite matches_one. set (g := glob_of _). vm_compute in g. subst g.
    cbn [glob]. by rewrite !andb_false_r. }
  unfold bad_option. rewrite !(matches_cons _ [_]), <-!matches_one.
  rewrite Hinv, Hunk. destruct minimal; [done|].
  assert (matches ["--*[!-a-z0-9]*"] ("-"%char :: c :: o :: other) = false)
    as -> by double_dash.
  assert (matches ["--*--*"] ("-"%char :: c :: o :: other) = false)
    as -> by double_dash.
  assert (matches ["--[a-z0-9]*[a-z0-9]"] ("-"%char :: c :: o :: other)
          = false) as -> by double_dash.
  done.
Qed.

(** The turn of the loop on a bundle: its first option is put before
    the rest of it. *)
Lemma short_split_step (minimal : bool) (c o : ascii) (other : text)
    (st : State) :
  Forall (λ a, isalnum a = true) (c :: o :: other) →
  find_arm arms ("-"%char :: c :: o :: other) = None →
  step minimal arms EOL ("-"%char :: c :: o :: other) st
  = inl {| args := ["-"%char; c] :: ("-"%char :: o :: other) :: args st;
           vars := vars st; sh_long := sh_long st;
           sh_short := if minimal then sh_short st else ["-"%char; c];
           sh_val := sh_val st |}.
Proof.
  intros Hall Hfind.
  pose proof Hall as [Hc%isalnum_not_dash _]%Forall_cons.
  unfold step. rewrite Hfind, bad_option_bundle by done.
  assert (matches ["-h"; "--help"] ("-"%char :: c :: o :: other) = false)
    as ->.
  { rewrite (matches_cons "-h" ["--help"]), matches_one.
    change (glob_of "-h") with (GLit <$> py "-h").
    change (glob_of "--help") with (GLit <$> py "--help").
    rewrite !glob_literals.
    rewrite !bool_decide_eq_false_2; [done|by intros [= ->]|done]. }
  assert (matches ["--"] ("-"%char :: c :: o :: other) = false) as ->.
  { rewrite matches_one. change (glob_of "--") with (GLit <$> py "--").
    rewrite glob_literals. by apply bool_decide_eq_false_2. }
  assert (matches ["--[!=]*=*"] ("-"%char :: c :: o :: other) = false)
    as -> by double_dash.
  assert (matches ["-?*"] ("-"%char :: c :: o :: other) = true) as ->.
  { rewrite matches_one. set (g := glob_of _). vm_compute in g. subst g.
    change (glob [GLit "-"%char; GAny; GStar] ("-"%char :: c :: o :: other))
      with (bool_decide ("-"%char = "-"%char) && glob [GStar] (o :: other)).
    by rewrite glob_star_all. }
  cbn [strip_dash_char]. unfold strip_suffix.
  replace (length ("-"%char :: c :: o :: other) - length (o :: other))
    with 2 by (simpl; lia).
  cbn [drop take]. by rewrite bool_decide_eq_true_2.
Qed.

(** The turn of the loop on a flag. *)
Lemma flag_step (minimal : bool) (c : ascii) (name : text) (st : State) :
  short_flag arms EOL c name → length (sh_long st) ≠ 2 →
  step minimal arms EOL ["-"%char; c] st
  = inl {| args := args st; vars := <[var_of name := py "true"]> (vars st);
           sh_long := sh_long st; sh_short := sh_short st;
           sh_val := sh_val st |}.
Proof.
  intros (_ & _ & o & Hfind & Harg) Hlong. unfold step.
  rewrite Hfind, (bool_decide_eq_true_2 _ Harg). cbn [negb].
  unfold assert_noarg.
  rewrite (bool_decide_eq_false_2 (_ = sh_long st)).
  - by rewrite andb_false_r.
  - intros Heq. apply Hlong. by rewrite <-Heq.
Qed.

Lemma flag_bundle_alnum (cs : list ascii) (names : list text) :
  flag_bundle arms EOL cs names → Forall (λ a, isalnum a = true) cs.
Proof.
  induction 1 as [c name (Hc & _)|c cs name names (Hc & _) _ _ _ _ IH];
    repeat constructor; done.
Qed.

(** A bundle of short flags sets the variable of each of its flags, in
    their order, and the loop goes on with the parameter after the
    bundle, in both styles: the variables [long] and [val] of the full
    style stay as they are, and a bundle of [n] flags takes [2n - 1]
    turns. *)
Theorem bundled_flags_set (minimal : bool) (cs : list ascii)
    (names : list text) (fuel : nat) (st : State) :
  flag_bundle arms EOL cs names → length (sh_long st) ≠ 2 →
  ∃ short,
    loop minimal arms EOL (2 * length cs - 1 + fuel)
      {| args := ("-"%char :: cs) :: args st; vars := vars st;
         sh_long := sh_long st; sh_short := sh_short st;
         sh_val := sh_val st |}
    = loop minimal arms EOL fuel
        {| args := args st; vars := set_flags names (vars st);
           sh_long := sh_long st; sh_short := short;
           sh_val := sh_val st |}.
Proof.
  intros Hbundle Hlong. revert st Hlong.
  induction Hbundle as [c name Hflag
                       |c cs name names Hflag Hcs Hfind Hne Hrest IH];
    intros st Hlong.
  - exists (sh_short st). destruct Hflag as (Hc & Hne & Harm).
    change (2 * length [c] - 1 + fuel) with (S fuel).
    cbn [loop args]. rewrite bool_decide_eq_false_2 by done.
    cbn [vars sh_long sh_short sh_val].
    by rewrite (flag_step minimal c name) by done.
  - destruct cs as [|o other]; [done|].
    pose proof (flag_bundle_alnum _ _ Hrest) as Hall.
    pose proof Hflag as (Hc & Hne1 & _).
    replace (2 * length (c :: o :: other) - 1 + fuel)
      with (S (S (2 * length (o :: other) - 1 + fuel))) by (simpl; lia).
    cbn [loop args]. rewrite bool_decide_eq_false_2 by done.
    cbn [vars sh_long sh_short sh_val].
    rewrite short_split_step by (done || by constructor).
    cbn [args]. rewrite bool_decide_eq_false_2 by done.
    cbn [vars sh_long sh_short sh_val].
    rewrite (flag_step minimal c name) by done.
    cbn [args vars sh_long sh_short sh_val].
    destruct (IH {| args := args st;
                    vars := <[var_of name := py "true"]> (vars st);
                    sh_long := sh_long st;
                    sh_short := if minimal then sh_short st
                                else ["-"%char; c];
                    sh_val := sh_val st |} Hlong) as [short Hloop].
    exists short. exact Hloop.
Qed.

End flag_bundles.

Lemma bundled_flags_set_witness :
  Shell.loop false (Shell.arms_of example_options) Shell.EOL_fixed 4
    (Shell.initial Shell.EOL_fixed [py "-vf"])
  = Some (Shell.Parsed {[ "opt_v" := py "true"; "opt_flag" := py "true" ]}
                       []).
Proof.
  destruct (bundled_flags_set (Shell.arms_of example_options)
              Shell.EOL_fixed false ["v"; "f"]%char [py "v"; py "flag"] 1
              {| Shell.args := [Shell.EOL_fixed]; Shell.vars := ∅;
                 Shell.sh_long := []; Shell.sh_short := [];
                 Shell.sh_val := [] |}) as [short Hloop].
  - apply bundle_more; [| | | |apply bundle_last].
    + split_and!; [by vm_compute..|]. eexists. by vm_compute.
    + done.
    + by vm_compute.
    + by vm_compute.
    + split_and!; [by vm_compute..|]. eexists. by vm_compute.
  - by vm_compute.
  - etrans; [exact Hloop|]. by vm_compute.
Defined.
